(** * The delegating lexer of chroma (delegate.go)

    A shallow embedding of [delegatingLexer]: the forwarding methods, the
    extraction of the "Other" text and of the insertions, the interleaving
    loop and [splitToken], followed by the properties of the merge.

    Conventions of the embedding.
    - Go's [int] is [Z]; every offset of the file is a sum or a difference of
      lengths of strings that are held in memory, far from the 64-bit bounds.
    - Go's [string] is [string] (a sequence of bytes); [len] is its length.
    - A function that can panic (a nil dereference, a slice expression out of
      range, a call of a nil iterator) returns an [option]: [None] is the panic.
    - A Go result [(x, err)] is a pair whose second component is [option error].
    - An [Iterator] is the sequence of tokens its successive calls yield; a
      consumer stops at the first [EOF]. *)

From Stdlib Require Import ZArith String Ascii Lia.
From stdpp Require Import base tactics option strings numbers list.

Local Open Scope Z_scope.
#[local] Set Warnings "-clear-no-such-hyp".

(** ** Strings *)

Definition len (s : string) : Z := Z.of_nat (String.length s).

(** [str_take n s] is the first [n] bytes of [s] and [str_drop n s] the rest. *)
Definition str_take (n : nat) (s : string) : string := substring 0 n s.
Definition str_drop (n : nat) (s : string) : string :=
  substring n (String.length s - n) s.

(** The slice expressions [s[:hi]] and [s[lo:]]: they panic out of range. *)
Definition slice_to (s : string) (hi : Z) : option string :=
  if decide (0 ≤ hi ≤ len s) then Some (str_take (Z.to_nat hi) s) else None.
Definition slice_from (s : string) (lo : Z) : option string :=
  if decide (0 ≤ lo ≤ len s) then Some (str_drop (Z.to_nat lo) s) else None.

(** ** Tokens *)

(** Modelled from the spec: a token is a pair [(type, value)]; its type is a
    classification tag (an integer here) and its value "the exact substring of
    text it covers". The declarations of [TokenType] and [Token] are outside
    delegate.go, which reads the fields [Type] and [Value]. *)
Definition TokenType := Z.

Record Token := mkToken { Type_ : TokenType; Value : string }.

Global Instance Token_eq_dec : EqDecision Token.
Proof. solve_decision. Defined.

(** Modelled from the spec: the [EOF] sentinel "represents stream exhaustion and
    carries no text". delegate.go compares the zero-valued [var last Token]
    with [EOF] to recognise the first token, so [EOF] is the zero [Token]. *)
Definition EOFType : TokenType := 0.
Definition EOF : Token := {| Type_ := EOFType; Value := "" |}.

(** [t.Clone()] copies the type and the value. *)
Definition Clone (t : Token) : Token := {| Type_ := Type_ t; Value := Value t |}.

(** The concatenation of the values of a token sequence. *)
Fixpoint values (ts : list Token) : string :=
  match ts with
  | [] => ""
  | t :: ts' => Value t +:+ values ts'
  end.

(** delegate.go, lines 175-190. *)
Definition splitToken (t : Token) (offset : Z) : option (Token * Token) :=
  if decide (t = EOF) then Some (EOF, EOF)
  else if decide (offset = 0) then Some (EOF, t)
  else if decide (offset = len (Value t)) then Some (t, EOF)
  else
    let l := Clone t in
    let r := Clone t in
    lv ← slice_to (Value l) offset;
    rv ← slice_from (Value r) offset;
    Some ({| Type_ := Type_ l; Value := lv |}, {| Type_ := Type_ r; Value := rv |}).

(** Draining an iterator: the tokens before the first [EOF]. *)
Fixpoint drain (it : list Token) : list Token :=
  match it with
  | [] => []
  | t :: it' => if decide (t = EOF) then [] else t :: drain it'
  end.

(** Modelled from the spec: token coalescing "merges consecutive tokens sharing
    the same type into one token with concatenated value". *)
Fixpoint coalesce (ts : list Token) : list Token :=
  match ts with
  | [] => []
  | t :: ts' =>
      match coalesce ts' with
      | t' :: r =>
          if decide (Type_ t = Type_ t')
          then {| Type_ := Type_ t; Value := Value t +:+ Value t' |} :: r
          else t :: t' :: r
      | [] => [t]
      end
  end.

(** An insertion is the character range where language tokens should be
    inserted (delegate.go, lines 47-51). *)
Record insertion := mkInsertion { start : Z; end_ : Z; tokens : list Token }.

Section Delegate.

(** Declarations of the package that delegate.go uses and does not define:
    the option and configuration types, the registry, the score type
    [float32], the iterator of original lengths with its zero value
    [OriginalLenIterator{}], and the token type [Other]. [World] is the
    mutable state that the methods of the two sub-lexers read and write. *)
Context {TokeniseOptions OriginalLenIterator ConfigT LexerRegistry float32 World : Type}.
Variable zeroOriginalLenIterator : OriginalLenIterator.
Variable Other : TokenType.

Definition Iterator := list Token.
Definition error := string.

(** The [Lexer] interface, as the methods delegate.go calls on its sub-lexers.
    [Lexer_TokeniseWithOriginalLen] is [Some] exactly when the lexer also
    implements [TokeniserWithOriginalLen] (the type assertion succeeds). *)
Record Lexer := mkLexer {
  Lexer_Config : World → ConfigT;
  Lexer_Tokenise : TokeniseOptions → string → World → option Iterator * option error;
  Lexer_SetRegistry : LexerRegistry → World → World;
  Lexer_SetAnalyser : (string → float32) → World → World;
  Lexer_AnalyseText : string → World → float32;
  Lexer_TokeniseWithOriginalLen :
    option (TokeniseOptions → string → World →
            option Iterator * OriginalLenIterator * option error)
}.

(** Modelled from the spec: the iterator over a materialised token list
    ([Literator(out...)]). *)
Definition Literator (ts : list Token) : Iterator := ts.

(** Modelled from the spec: [Coalesce(lexer)] is the lexer whose token stream
    is the coalesced stream of [lexer]; an error of [lexer] is returned as it
    is, with a nil iterator. *)
Definition Coalesce (lexer : Lexer) : Lexer :=
  {| Lexer_Config := Lexer_Config lexer;
     Lexer_Tokenise := fun options text w =>
       match Lexer_Tokenise lexer options text w with
       | (_, Some err) => (None, Some err)
       | (Some it, None) => (Some (coalesce (drain it)), None)
       | (None, None) => (None, None)
       end;
     Lexer_SetRegistry := Lexer_SetRegistry lexer;
     Lexer_SetAnalyser := Lexer_SetAnalyser lexer;
     Lexer_AnalyseText := Lexer_AnalyseText lexer;
     Lexer_TokeniseWithOriginalLen :=
       match Lexer_TokeniseWithOriginalLen lexer with
       | None => None
       | Some f => Some (fun options text w =>
           match f options text w with
           | (_, ol, Some err) => (None, ol, Some err)
           | (Some it, ol, None) => (Some (coalesce (drain it)), ol, None)
           | (None, ol, None) => (None, ol, None)
           end)
       end |}.

(** Modelled from the spec: the package function [Tokenise(lexer, options,
    text)] materialises the token list of [lexer]: it returns [(nil, err)] on
    an error and the tokens before [EOF] otherwise. *)
Definition Tokenise (lexer : Lexer) (options : TokeniseOptions) (text : string)
    (w : World) : option (list Token * option error) :=
  match Lexer_Tokenise lexer options text w with
  | (_, Some err) => Some ([], Some err)
  | (Some it, None) => Some (drain it, None)
  | (None, None) => None
  end.

(** ** The wrapper (delegate.go, lines 8-45) *)

Record delegatingLexer := mkDelegatingLexer { root : Lexer; language : Lexer }.

Definition DelegatingLexer (root language : Lexer) : delegatingLexer :=
  {| root := root; language := language |}.

Definition delegatingLexer_AnalyseText (d : delegatingLexer) (text : string)
    (w : World) : float32 :=
  Lexer_AnalyseText (root d) text w.

Definition delegatingLexer_SetAnalyser (d : delegatingLexer)
    (analyser : string → float32) (w : World) : delegatingLexer * World :=
  let w := Lexer_SetAnalyser (root d) analyser w in
  (d, w).

Definition delegatingLexer_SetRegistry (d : delegatingLexer) (r : LexerRegistry)
    (w : World) : delegatingLexer * World :=
  let w := Lexer_SetRegistry (root d) r w in
  let w := Lexer_SetRegistry (language d) r w in
  (d, w).

Definition delegatingLexer_Config (d : delegatingLexer) (w : World) : ConfigT :=
  Lexer_Config (language d) w.

(** ** Insertions and "Other" text (delegate.go, lines 94-115) *)

(** [insert] is a pointer to an element of [insertions]: its index. *)
Record ExtractState := mkExtractState {
  others : string;
  insertions : list insertion;
  insert : option nat;
  offset : Z;
  last : Token
}.

Definition extractInit : ExtractState :=
  {| others := ""; insertions := []; insert := None; offset := 0; last := EOF |}.

Definition setEnd (e : Z) (i : insertion) : insertion :=
  {| start := start i; end_ := e; tokens := tokens i |}.
Definition appendToken (t : Token) (i : insertion) : insertion :=
  {| start := start i; end_ := end_ i; tokens := tokens i ++ [t] |}.

(** One iteration of [for _, t := range tokens]. *)
Definition extractStep (st : ExtractState) (t : Token) : option ExtractState :=
  if decide (Type_ t = Other) then
    let insertions1 :=
      if decide (last st ≠ EOF ∧ insert st ≠ None ∧ Type_ (last st) ≠ Other)
      then match insert st with
           | Some p => alter (setEnd (offset st)) p (insertions st)
           | None => insertions st
           end
      else insertions st in
    Some {| others := others st +:+ Value t;
            insertions := insertions1;
            insert := insert st;
            offset := offset st + len (Value t);
            last := t |}
  else
    let '(insertions1, insert1) :=
      if decide (last st = EOF ∨ Type_ (last st) = Other)
      then (insertions st ++ [ {| start := offset st; end_ := 0; tokens := [] |} ],
            Some (length (insertions st)))
      else (insertions st, insert st) in
    p ← insert1;
    Some {| others := others st;
            insertions := alter (appendToken t) p insertions1;
            insert := insert1;
            offset := offset st + len (Value t);
            last := t |}.

Fixpoint extractFrom (st : ExtractState) (ts : list Token) : option ExtractState :=
  match ts with
  | [] => Some st
  | t :: ts' => st' ← extractStep st t; extractFrom st' ts'
  end.

Definition extract (ts : list Token) : option ExtractState :=
  extractFrom extractInit ts.

(** ** Interleaving (delegate.go, lines 128-171) *)

Record MergeState := mkMergeState {
  out : list Token;
  moffset : Z;
  tokenIndex : nat;
  insertionIndex : nat;
  cur_t : Token;
  cur_i : option insertion
}.

Section Merge.
Variable rootTokens : list Token.
Variable inserts : list insertion.

(** [nextToken] and [nextInsertion]: the element under the index and the index
    advanced, or [EOF] / nil once the index has reached the length. *)
Definition nextToken (tokenIndex : nat) : Token * nat :=
  match rootTokens !! tokenIndex with
  | None => (EOF, tokenIndex)
  | Some t => (t, S tokenIndex)
  end.

Definition nextInsertion (insertionIndex : nat) : option insertion * nat :=
  match inserts !! insertionIndex with
  | None => (None, insertionIndex)
  | Some i => (Some i, S insertionIndex)
  end.

Definition mergeInit : MergeState :=
  let '(t, ti) := nextToken 0 in
  let '(i, ii) := nextInsertion 0 in
  {| out := []; moffset := 0; tokenIndex := ti; insertionIndex := ii;
     cur_t := t; cur_i := i |}.

(** The loop condition [t != EOF || i != nil]. *)
Definition mergeCond (st : MergeState) : bool :=
  bool_decide (cur_t st ≠ EOF) || bool_decide (cur_i st ≠ None).

(** The test [t == EOF || (i != nil && i.start < offset+len(t.Value))]. *)
Definition insertionDue (st : MergeState) : bool :=
  bool_decide (cur_t st = EOF) ||
  match cur_i st with
  | Some i => bool_decide (start i < moffset st + len (Value (cur_t st)))
  | None => false
  end.

(** The loop body. *)
Definition mergeStep (st : MergeState) : option MergeState :=
  if insertionDue st then
    i ← cur_i st;
    '(l, t) ← splitToken (cur_t st) (start i - moffset st);
    let '(out1, offset1) :=
      if decide (l ≠ EOF) then (out st ++ [l], moffset st + len (Value l))
      else (out st, moffset st) in
    let out2 := out1 ++ tokens i in
    let offset2 := offset1 + (end_ i - start i) in
    let '(t, ti) :=
      if decide (t = EOF) then nextToken (tokenIndex st) else (t, tokenIndex st) in
    let '(i', ii) := nextInsertion (insertionIndex st) in
    Some {| out := out2; moffset := offset2; tokenIndex := ti;
            insertionIndex := ii; cur_t := t; cur_i := i' |}
  else
    let '(t, ti) := nextToken (tokenIndex st) in
    Some {| out := out st ++ [cur_t st];
            moffset := moffset st + len (Value (cur_t st));
            tokenIndex := ti; insertionIndex := insertionIndex st;
            cur_t := t; cur_i := cur_i st |}.

(** The loop, with a bound on the number of iterations: the outer [None] is
    the bound reached, the inner one a panic of the body. *)
Fixpoint mergeLoop (fuel : nat) (st : MergeState) : option (option (list Token)) :=
  if mergeCond st then
    match fuel with
    | O => None
    | S fuel' =>
        match mergeStep st with
        | None => Some None
        | Some st' => mergeLoop fuel' st'
        end
    end
  else Some (Some (out st)).

(** Every iteration consumes a root token or an insertion, so this many
    iterations are enough (the bound is never reached: [interleave_fuel]). *)
Definition mergeFuel : nat := 2 * length inserts + length rootTokens + 1.

(** The tokens [out] the loop leaves; [None] is a panic of the loop body. *)
Definition interleave : option (list Token) :=
  default None (mergeLoop mergeFuel mergeInit).

End Merge.

(** ** tokenise (delegate.go, lines 86-173) *)

Definition tokenizeWithOriginalLen : Type :=
  Lexer → TokeniseOptions → string → World →
  option (list Token * OriginalLenIterator * option error).
Definition tokenizeRootWithOriginalLen : Type :=
  TokeniseOptions → string → World →
  option (option Iterator * OriginalLenIterator * option error).

Definition delegatingLexer_tokenise (d : delegatingLexer) (options : TokeniseOptions)
    (tokeniseFn : tokenizeWithOriginalLen)
    (tokenizeRootFn : tokenizeRootWithOriginalLen) (text : string) (w : World)
    : option (option Iterator * OriginalLenIterator * option error) :=
  '(tokens, offsetIter, err) ← tokeniseFn (Coalesce (language d)) options text w;
  match err with
  | Some err => Some (None, zeroOriginalLenIterator, Some err)
  | None =>
      st ← extract tokens;
      if decide (length (insertions st) = 0%nat) then
        tokenizeRootFn options text w
      else
        '(rootTokens, err) ← Tokenise (Coalesce (root d)) options (others st) w;
        match err with
        | Some err => Some (None, zeroOriginalLenIterator, Some err)
        | None =>
            out ← interleave rootTokens (insertions st);
            Some (Some (Literator out), offsetIter, None)
        end
  end.

(** delegate.go, lines 53-66. *)
Definition delegatingLexer_Tokenise (d : delegatingLexer) (options : TokeniseOptions)
    (text : string) (w : World) : option (option Iterator * option error) :=
  let tokeniseFn : tokenizeWithOriginalLen := fun lexer options text w =>
    '(tokens, err) ← Tokenise lexer options text w;
    Some (tokens, zeroOriginalLenIterator, err) in
  let tokenizeRootFn : tokenizeRootWithOriginalLen := fun options text w =>
    let '(it, err) := Lexer_Tokenise (root d) options text w in
    Some (it, zeroOriginalLenIterator, err) in
  '(tokens, _, err) ← delegatingLexer_tokenise d options tokeniseFn tokenizeRootFn text w;
  Some (tokens, err).

(** delegate.go, lines 68-84. The package function [TokeniseWithOriginalLen]
    bound to [tokeniseFn] is defined outside delegate.go: it is the argument
    [pkgTokeniseWithOriginalLen]. *)
Definition unsupportedErr : error := "lexer does not support tokenizing with offsets".

Definition delegatingLexer_TokeniseWithOriginalLen
    (pkgTokeniseWithOriginalLen : tokenizeWithOriginalLen)
    (d : delegatingLexer) (options : TokeniseOptions) (text : string) (w : World)
    : option (option Iterator * OriginalLenIterator * option error) :=
  let tokeniseFn := pkgTokeniseWithOriginalLen in
  let tokenizeRootFn : tokenizeRootWithOriginalLen := fun options text w =>
    match Lexer_TokeniseWithOriginalLen (root d) with
    | None =>
        let err := unsupportedErr in
        Some (None, zeroOriginalLenIterator, Some err)
    | Some lex =>
        let '(it, offsetIter, err) := lex options text w in
        Some (it, offsetIter, err)
    end in
  delegatingLexer_tokenise d options tokeniseFn tokenizeRootFn text w.

(** * Properties *)

(** ** Strings *)

Lemma sapp_nil_l (s : string) : "" +:+ s = s.
Proof. reflexivity. Qed.

Lemma sapp_cons (c : ascii) (a b : string) : String c a +:+ b = String c (a +:+ b).
Proof. reflexivity. Qed.

Lemma sapp_nil_r (s : string) : s +:+ "" = s.
Proof. induction s as [|c s IH]; [done|]. by rewrite sapp_cons, IH. Qed.

Lemma sapp_assoc (a b c : string) : (a +:+ b) +:+ c = a +:+ (b +:+ c).
Proof. induction a as [|x a IH]; [done|]. by rewrite !sapp_cons, IH. Qed.

Lemma length_sapp (a b : string) :
  String.length (a +:+ b) = (String.length a + String.length b)%nat.
Proof. induction a as [|x a IH]; [done|]. rewrite sapp_cons. simpl. by rewrite IH. Qed.

Lemma len_app (a b : string) : len (a +:+ b) = len a + len b.
Proof. unfold len. rewrite length_sapp. lia. Qed.

Lemma len_nonneg (s : string) : 0 ≤ len s.
Proof. unfold len. lia. Qed.

Lemma len_zero (s : string) : len s = 0 → s = "".
Proof. destruct s; [done|]. unfold len. simpl. lia. Qed.

Lemma len_empty : len "" = 0.
Proof. done. Qed.

Lemma str_take_S (n : nat) (c : ascii) (s : string) :
  str_take (S n) (String c s) = String c (str_take n s).
Proof. done. Qed.

Lemma str_drop_S (n : nat) (c : ascii) (s : string) :
  str_drop (S n) (String c s) = str_drop n s.
Proof. done. Qed.

Lemma str_take_0 (s : string) : str_take 0 s = "".
Proof. by destruct s. Qed.

Lemma str_take_all (n : nat) (s : string) :
  (String.length s ≤ n)%nat → str_take n s = s.
Proof.
  revert n. induction s as [|c s IH]; intros n Hn.
  - by destruct n.
  - destruct n as [|n]; simpl in Hn; [lia|].
    rewrite str_take_S, IH; [done|lia].
Qed.

Lemma str_drop_0 (s : string) : str_drop 0 s = s.
Proof.
  unfold str_drop. rewrite Nat.sub_0_r.
  apply (str_take_all (String.length s) s). lia.
Qed.

Lemma str_drop_all (n : nat) (s : string) :
  (String.length s ≤ n)%nat → str_drop n s = "".
Proof.
  revert n. induction s as [|c s IH]; intros n Hn.
  - by destruct n.
  - destruct n as [|n]; simpl in Hn; [lia|].
    rewrite str_drop_S. apply IH. lia.
Qed.

Lemma str_take_app_le (n : nat) (a b : string) :
  (n ≤ String.length a)%nat → str_take n (a +:+ b) = str_take n a.
Proof.
  revert n. induction a as [|c a IH]; intros n Hn; simpl in Hn.
  - assert (n = 0%nat) as -> by lia. by rewrite !str_take_0.
  - destruct n as [|n]; [by rewrite !str_take_0|].
    rewrite sapp_cons, !str_take_S, IH; [done|lia].
Qed.

Lemma str_take_app_ge (n : nat) (a b : string) :
  (String.length a ≤ n)%nat →
  str_take n (a +:+ b) = a +:+ str_take (n - String.length a) b.
Proof.
  revert n. induction a as [|c a IH]; intros n Hn; simpl in Hn.
  - rewrite !sapp_nil_l. simpl. by rewrite Nat.sub_0_r.
  - destruct n as [|n]; [lia|].
    rewrite !sapp_cons, str_take_S, IH; [done|lia].
Qed.

Lemma str_drop_app_le (n : nat) (a b : string) :
  (n ≤ String.length a)%nat → str_drop n (a +:+ b) = str_drop n a +:+ b.
Proof.
  revert n. induction a as [|c a IH]; intros n Hn; simpl in Hn.
  - assert (n = 0%nat) as -> by lia. by rewrite !str_drop_0.
  - destruct n as [|n]; [by rewrite !str_drop_0|].
    rewrite sapp_cons, !str_drop_S, IH; [done|lia].
Qed.

Lemma str_drop_app_ge (n : nat) (a b : string) :
  (String.length a ≤ n)%nat →
  str_drop n (a +:+ b) = str_drop (n - String.length a) b.
Proof.
  revert n. induction a as [|c a IH]; intros n Hn; simpl in Hn.
  - rewrite sapp_nil_l. simpl. by rewrite Nat.sub_0_r.
  - destruct n as [|n]; [lia|].
    rewrite sapp_cons, str_drop_S, IH; [done|lia].
Qed.

Lemma str_take_drop (n : nat) (s : string) : str_take n s +:+ str_drop n s = s.
Proof.
  revert n. induction s as [|c s IH]; intros n.
  - by destruct n.
  - destruct n as [|n]; [by rewrite str_take_0, str_drop_0|].
    by rewrite str_take_S, str_drop_S, sapp_cons, IH.
Qed.

Lemma length_str_take (n : nat) (s : string) :
  (n ≤ String.length s)%nat → String.length (str_take n s) = n.
Proof.
  revert n. induction s as [|c s IH]; intros n Hn; simpl in Hn.
  - assert (n = 0%nat) as -> by lia. done.
  - destruct n as [|n]; [done|].
    rewrite str_take_S. simpl. rewrite IH; [done|lia].
Qed.

Lemma length_str_drop (n : nat) (s : string) :
  String.length (str_drop n s) = (String.length s - n)%nat.
Proof.
  revert n. induction s as [|c s IH]; intros n.
  - by destruct n.
  - destruct n as [|n]; [by rewrite str_drop_0|].
    rewrite str_drop_S. simpl. apply IH.
Qed.

Lemma values_app (xs ys : list Token) : values (xs ++ ys) = values xs +:+ values ys.
Proof.
  induction xs as [|x xs IH]; [done|]. simpl. by rewrite IH, sapp_assoc.
Qed.

(** ** splitToken *)

Lemma splitToken_EOF (o : Z) : splitToken EOF o = Some (EOF, EOF).
Proof. done. Qed.

Lemma slice_to_Some (s : string) (o : Z) (r : string) :
  slice_to s o = Some r → 0 ≤ o ≤ len s ∧ r = str_take (Z.to_nat o) s.
Proof. unfold slice_to. case_decide; naive_solver. Qed.

Lemma slice_from_Some (s : string) (o : Z) (r : string) :
  slice_from s o = Some r → 0 ≤ o ≤ len s ∧ r = str_drop (Z.to_nat o) s.
Proof. unfold slice_from. case_decide; naive_solver. Qed.

Lemma splitToken_interior (t : Token) (o : Z) :
  t ≠ EOF → 0 < o < len (Value t) →
  splitToken t o =
    Some ({| Type_ := Type_ t; Value := str_take (Z.to_nat o) (Value t) |},
          {| Type_ := Type_ t; Value := str_drop (Z.to_nat o) (Value t) |}).
Proof.
  intros Ht Ho. unfold splitToken, slice_to, slice_from, Clone. simpl.
  repeat case_decide; try lia; done.
Qed.

(** What a call of [splitToken] that returns has computed. *)
Lemma splitToken_Some (t : Token) (o : Z) (l r : Token) :
  splitToken t o = Some (l, r) →
  (t = EOF ∧ l = EOF ∧ r = EOF) ∨
  (t ≠ EOF ∧ 0 ≤ o ≤ len (Value t) ∧
   Value l = str_take (Z.to_nat o) (Value t) ∧
   Value r = str_drop (Z.to_nat o) (Value t) ∧
   (l = EOF ∨ Type_ l = Type_ t) ∧ (r = EOF ∨ Type_ r = Type_ t)).
Proof.
  unfold splitToken. intros H.
  destruct (decide (t = EOF)) as [->|Ht]; [left; naive_solver|right].
  split; [done|].
  destruct (decide (o = 0)) as [->|Ho0].
  { simplify_eq. pose proof (len_nonneg (Value r)).
    rewrite str_take_0, str_drop_0. naive_solver. }
  destruct (decide (o = len (Value t))) as [->|Hol].
  { simplify_eq. pose proof (len_nonneg (Value l)). unfold len.
    rewrite Nat2Z.id, str_take_all, str_drop_all by lia. naive_solver. }
  simpl in H.
  destruct (slice_to (Value t) o) as [lv|] eqn:Hl; [|done].
  destruct (slice_from (Value t) o) as [rv|] eqn:Hr; [|done].
  apply slice_to_Some in Hl as [? ->]. apply slice_from_Some in Hr as [_ ->].
  simpl in H. simplify_eq. simpl. naive_solver.
Qed.

(** [splitToken] panics exactly on an offset out of the token's value. *)
Lemma splitToken_is_Some (t : Token) (o : Z) :
  is_Some (splitToken t o) ↔ t = EOF ∨ 0 ≤ o ≤ len (Value t).
Proof.
  split.
  - intros [[l r] H]. apply splitToken_Some in H. naive_solver.
  - intros [->|Ho]; [by eexists|].
    unfold splitToken, slice_to, slice_from, Clone. simpl.
    repeat case_decide; try lia; by eexists.
Qed.

(** C6, as amended: for a token [t] other than [EOF] and an offset within its
    value, [splitToken t 0] is [(EOF, t)]; [splitToken t (len t.Value)] is
    [(t, EOF)] when the value is not empty (on an empty value the test of
    offset 0 comes first); and an interior offset gives two tokens of the type
    of [t] whose values are [t.Value[:o]] and [t.Value[o:]]. *)
Theorem splitToken_spec (t : Token) (o : Z) :
  t ≠ EOF → 0 ≤ o ≤ len (Value t) →
  (o = 0 → splitToken t o = Some (EOF, t)) ∧
  (o = len (Value t) → 0 < len (Value t) → splitToken t o = Some (t, EOF)) ∧
  (0 < o < len (Value t) →
     splitToken t o =
       Some ({| Type_ := Type_ t; Value := str_take (Z.to_nat o) (Value t) |},
             {| Type_ := Type_ t; Value := str_drop (Z.to_nat o) (Value t) |}) ∧
     slice_to (Value t) o = Some (str_take (Z.to_nat o) (Value t)) ∧
     slice_from (Value t) o = Some (str_drop (Z.to_nat o) (Value t))).
Proof.
  intros Ht Ho. repeat split.
  - intros ->. unfold splitToken. by repeat case_decide.
  - intros -> Hpos. unfold splitToken. repeat case_decide; try done; lia.
  - by apply splitToken_interior.
  - unfold slice_to. case_decide; [done|lia].
  - unfold slice_from. case_decide; [done|lia].
Qed.

(** ** The text an insertion list denotes *)

(** [weave off R pend] splices the insertions [pend] into the root text [R],
    [off] being the offset of the original text at which [R] starts. *)
Fixpoint weave (off : Z) (R : string) (pend : list insertion) : string :=
  match pend with
  | [] => R
  | i :: rest =>
      let g := Z.to_nat (start i - off) in
      str_take g R +:+ values (tokens i) +:+ weave (end_ i) (str_drop g R) rest
  end.

(** The insertions start at or after [off], each one at or after the end of
    the one before; the end of the last one is not looked at. *)
Fixpoint chain (off : Z) (pend : list insertion) : Prop :=
  match pend with
  | [] => True
  | i :: rest => off ≤ start i ∧ chain (end_ i) rest
  end.

(** The end of the last insertion, or [off] when there is none. *)
Fixpoint lastEnd (off : Z) (pend : list insertion) : Z :=
  match pend with
  | [] => off
  | i :: rest => lastEnd (end_ i) rest
  end.

(** [Ws off ins B txt o]: the closed insertions [ins], spliced from offset
    [off] into the "Other" text [B], give the text [txt] and end at offset [o]. *)
Inductive Ws : Z → list insertion → string → string → Z → Prop :=
  | Ws_nil off : Ws off [] "" "" off
  | Ws_cons off i rest A B txt o :
      len A = start i - off →
      end_ i = start i + len (values (tokens i)) →
      Ws (end_ i) rest B txt o →
      Ws off (i :: rest) (A +:+ B) (A +:+ values (tokens i) +:+ txt) o.

Lemma str_take_app_exact (a b : string) : str_take (String.length a) (a +:+ b) = a.
Proof. rewrite str_take_app_le by lia. apply str_take_all. lia. Qed.

Lemma str_drop_app_exact (a b : string) : str_drop (String.length a) (a +:+ b) = b.
Proof. rewrite str_drop_app_ge by lia. rewrite Nat.sub_diag. apply str_drop_0. Qed.

Lemma Ws_snoc off ins B txt o i A :
  Ws off ins B txt o →
  len A = start i - o →
  end_ i = start i + len (values (tokens i)) →
  Ws off (ins ++ [i]) (B +:+ A) (txt +:+ A +:+ values (tokens i)) (end_ i).
Proof.
  induction 1 as [off|off j rest A0 B txt o HA0 Hj HW IH]; intros HA Hi.
  - rewrite !sapp_nil_l. simpl.
    rewrite <-(sapp_nil_r A) at 1. rewrite <-(sapp_nil_r (values (tokens i))).
    apply Ws_cons; [done..|constructor].
  - rewrite !sapp_assoc. simpl. apply Ws_cons; [done..|]. by apply IH.
Qed.

Lemma Ws_weave off ins B txt o R J :
  Ws off ins B txt o → weave off (B +:+ R) (ins ++ J) = txt +:+ weave o R J.
Proof.
  induction 1 as [off|off j rest A0 B txt o HA0 Hj HW IH]; [done|].
  simpl. assert (Z.to_nat (start j - off) = String.length A0) as ->.
  { rewrite <-HA0. unfold len. lia. }
  rewrite !sapp_assoc, str_take_app_exact, str_drop_app_exact, IH. done.
Qed.

Lemma Ws_chain off ins B txt o J :
  Ws off ins B txt o → chain o J → chain off (ins ++ J).
Proof.
  induction 1 as [off|off j rest A0 B txt o HA0 Hj HW IH]; intros HJ; [done|].
  specialize (IH HJ). pose proof (len_nonneg A0).
  simpl. split; [lia|done].
Qed.

Lemma Ws_closed off ins B txt o :
  Ws off ins B txt o →
  Forall (λ i, end_ i - start i = len (values (tokens i))) ins.
Proof. induction 1; constructor; [lia|done]. Qed.

Lemma alter_last {A} (f : A → A) (l : list A) (x : A) :
  alter f (length l) (l ++ [x]) = l ++ [f x].
Proof. rewrite <-(Nat.add_0_r (length l)) at 1. by rewrite alter_app_r. Qed.

(** ** The extraction loop *)

(** The state of the loop after the tokens [P], none of which is [EOF]. *)
Record ExtInv (P : list Token) (st : ExtractState) : Prop := {
  ei_offset : offset st = len (values P);
  ei_insert :
    (insert st = None ∧ insertions st = []) ∨
    (∃ ins0 i, insertions st = ins0 ++ [i] ∧ insert st = Some (length ins0));
  ei_toks :
    Forall (λ i, Forall (λ t, t ∈ P ∧ Type_ t ≠ Other) (tokens i)) (insertions st);
  ei_others : others st = values (filter (λ t, Type_ t = Other) P);
  ei_empty : insertions st = [] → Forall (λ t, Type_ t = Other) P;
  ei_shape :
    if decide (last st = EOF ∨ Type_ (last st) = Other) then
      ∃ B txt o tr,
        Ws 0 (insertions st) B txt o ∧ others st = B +:+ tr ∧
        values P = txt +:+ tr ∧ offset st = o + len tr
    else
      ∃ ins0 i B txt o tr,
        insertions st = ins0 ++ [i] ∧ Ws 0 ins0 B txt o ∧
        others st = B +:+ tr ∧ start i = o + len tr ∧
        values P = txt +:+ tr +:+ values (tokens i) ∧
        offset st = start i + len (values (tokens i))
}.

Lemma ExtInv_init : ExtInv [] extractInit.
Proof.
  constructor; simpl; try done.
  - by left.
  - exists "", "", 0, "". repeat split; constructor.
Qed.

Lemma toks_mono (P : list Token) (t : Token) (ins : list insertion) :
  Forall (λ i, Forall (λ t, t ∈ P ∧ Type_ t ≠ Other) (tokens i)) ins →
  Forall (λ i, Forall (λ t', t' ∈ P ++ [t] ∧ Type_ t' ≠ Other) (tokens i)) ins.
Proof.
  intros H. eapply Forall_impl; [exact H|]. intros i Hi. simpl in Hi.
  eapply Forall_impl; [exact Hi|]. intros x [??]. split; [|done].
  apply elem_of_app. by left.
Qed.

Lemma extractStep_inv (P : list Token) (st : ExtractState) (t : Token) :
  ExtInv P st → t ≠ EOF →
  ∃ st', extractStep st t = Some st' ∧ ExtInv (P ++ [t]) st'.
Proof.
  intros [Hoff Hins Htoks Hoth Hemp Hshape] Ht.
  assert (Hoff' : offset st + len (Value t) = len (values (P ++ [t]))).
  { rewrite values_app, len_app, Hoff. simpl. by rewrite sapp_nil_r. }
  unfold extractStep.
  destruct (decide (Type_ t = Other)) as [HtO|HtO].
  - (* an Other token *)
    eexists; split; [reflexivity|].
    assert (Hoth' : others st +:+ Value t
                    = values (filter (λ t, Type_ t = Other) (P ++ [t]))).
    { rewrite filter_app, values_app, Hoth.
      rewrite (filter_cons_True _ t []) by done. simpl. by rewrite sapp_nil_r. }
    destruct (decide (last st = EOF ∨ Type_ (last st) = Other)) as [Hc|Hc].
    + rewrite decide_False by tauto.
      destruct Hshape as (B & txt & o & tr & HW & HB & HP & Ho).
      constructor; simpl; try done.
      * by apply toks_mono.
      * intros He. apply Forall_app. split; [by apply Hemp|]. by constructor.
      * rewrite decide_True by (by right).
        exists B, txt, o, (tr +:+ Value t).
        rewrite values_app, HB, HP, len_app, !sapp_assoc. simpl.
        rewrite sapp_nil_r. repeat split; [done|lia].
    + destruct Hshape as (ins0 & i & B & txt & o & tr & Hi & HW & HB & Hst & HP & Ho).
      destruct Hins as [[_ Hnil]|(ins1 & i1 & Hi1 & Hp)].
      { rewrite Hnil in Hi. by destruct ins0. }
      rewrite Hi in Hi1. apply app_inj_tail in Hi1 as [<- <-].
      rewrite Hp, decide_True by (split; [tauto|split; [done|tauto]]).
      rewrite Hi, alter_last.
      constructor; simpl; try done.
      * right. by exists ins0, (setEnd (offset st) i).
      * rewrite Hi in Htoks. apply toks_mono with (t:=t) in Htoks.
        apply Forall_app in Htoks as [H0 H1]. apply Forall_app. split; [done|].
        inversion H1; subst. by constructor.
      * intros He. by destruct ins0.
      * rewrite decide_True by (by right).
        exists (B +:+ tr), (txt +:+ tr +:+ values (tokens i)), (offset st), (Value t).
        split.
        { apply (Ws_snoc 0 ins0 B txt o (setEnd (offset st) i) tr HW); simpl; lia. }
        rewrite values_app, HB, HP, !sapp_assoc. simpl. by rewrite sapp_nil_r.
  - (* a language token *)
    destruct (decide (last st = EOF ∨ Type_ (last st) = Other)) as [Hc|Hc].
    + destruct Hshape as (B & txt & o & tr & HW & HB & HP & Ho).
      simpl. eexists; split; [reflexivity|]. rewrite alter_last.
      constructor; simpl; try done.
      * right. by eexists _, _.
      * apply Forall_app. split; [by apply toks_mono|].
        repeat constructor; [|done]. apply elem_of_app. right. by left.
      * rewrite filter_app, (filter_cons_False _ t []) by done.
        by rewrite app_nil_r.
      * intros He. by destruct (insertions st).
      * rewrite decide_False by (intros [?|?]; done).
        eexists (insertions st), _, B, txt, o, tr. split; [reflexivity|].
        simpl. rewrite values_app, HP, !sapp_assoc, !sapp_nil_r. simpl.
        rewrite sapp_nil_r. repeat split; first [done|lia].
    + destruct Hshape as (ins0 & i & B & txt & o & tr & Hi & HW & HB & Hst & HP & Ho).
      destruct Hins as [[_ Hnil]|(ins1 & i1 & Hi1 & Hp)].
      { rewrite Hnil in Hi. by destruct ins0. }
      rewrite Hi in Hi1. apply app_inj_tail in Hi1 as [<- <-].
      rewrite Hp. simpl. eexists; split; [reflexivity|].
      rewrite Hi, alter_last.
      constructor; simpl; try done.
      * right. by eexists _, _.
      * rewrite Hi in Htoks. apply toks_mono with (t:=t) in Htoks.
        apply Forall_app in Htoks as [H0 H1]. apply Forall_app. split; [done|].
        inversion H1; subst. constructor; [|done]. simpl.
        apply Forall_app. split; [done|].
        repeat constructor; [|done]. apply elem_of_app. right. by left.
      * rewrite filter_app, (filter_cons_False _ t []) by done.
        by rewrite app_nil_r.
      * intros He. by destruct ins0.
      * rewrite decide_False by (intros [?|?]; done).
        eexists ins0, _, B, txt, o, tr. split; [reflexivity|].
        simpl. rewrite !values_app, HP, !sapp_assoc, len_app. simpl.
        rewrite sapp_nil_r. repeat split; first [done|lia].
Qed.

Lemma extractFrom_inv (ts P : list Token) (st : ExtractState) :
  ExtInv P st → EOF ∉ ts →
  ∃ st', extractFrom st ts = Some st' ∧ ExtInv (P ++ ts) st'.
Proof.
  revert P st. induction ts as [|t ts IH]; intros P st Hinv Hts.
  - exists st. by rewrite app_nil_r.
  - apply not_elem_of_cons in Hts as [Ht Hts].
    destruct (extractStep_inv P st t Hinv) as (st1 & Hst1 & Hinv1); [done|].
    destruct (IH _ _ Hinv1 Hts) as (st' & Hst' & Hinv').
    exists st'. simpl. rewrite Hst1. simpl. split; [done|].
    by rewrite <-app_assoc in Hinv'.
Qed.

(** What the loop has computed when no token is [EOF]. *)
Lemma extract_spec (ts : list Token) :
  EOF ∉ ts →
  ∃ st, extract ts = Some st ∧
    weave 0 (others st) (insertions st) = values ts ∧
    Forall (λ i, Forall (λ t, t ∈ ts ∧ Type_ t ≠ Other) (tokens i)) (insertions st) ∧
    others st = values (filter (λ t, Type_ t = Other) ts) ∧
    (insertions st = [] → Forall (λ t, Type_ t = Other) ts).
Proof.
  intros Hts.
  destruct (extractFrom_inv ts [] extractInit ExtInv_init Hts) as (st & Hst & Hinv).
  rewrite app_nil_l in Hinv. exists st. split; [done|].
  destruct Hinv as [Hoff Hins Htoks Hoth Hemp Hshape].
  repeat split; try done.
  - destruct (decide (last st = EOF ∨ Type_ (last st) = Other)) as [Hc|Hc].
    + destruct Hshape as (B & txt & o & tr & HW & HB & HP & Ho).
      rewrite <-(app_nil_r (insertions st)), HB, HP.
      by rewrite (Ws_weave _ _ _ _ _ tr [] HW).
    + destruct Hshape as (ins0 & i & B & txt & o & tr & Hi & HW & HB & Hs & HP & Ho).
      rewrite Hi, HB, HP, (Ws_weave _ _ _ _ _ tr [i] HW). simpl.
      assert (Z.to_nat (start i - o) = String.length tr) as ->.
      { rewrite Hs. unfold len. lia. }
      rewrite str_take_all, str_drop_all by lia. by rewrite sapp_nil_r.
Qed.

(** On a token list that is all [Other] nothing is inserted. *)
Lemma extractFrom_all_Other (ts : list Token) (st : ExtractState) :
  Forall (λ t, Type_ t = Other) ts → insert st = None →
  ∃ st', extractFrom st ts = Some st' ∧ insertions st' = insertions st ∧
         others st' = others st +:+ values ts.
Proof.
  revert st. induction ts as [|t ts IH]; intros st Hts Hins.
  - exists st. simpl. by rewrite sapp_nil_r.
  - inversion Hts as [|?? Ht Hts']; subst. simpl. unfold extractStep.
    rewrite decide_True by done. rewrite decide_False by tauto. simpl.
    edestruct IH as (st' & Hst' & Hi & Ho); [done| |].
    2:{ exists st'. split; [exact Hst'|]. simpl in Hi, Ho.
        split; [done|]. by rewrite Ho, sapp_assoc. }
    done.
Qed.

(** *** The loop on any token list *)

Lemma chain_snoc (off : Z) (ins : list insertion) (i : insertion) :
  chain off (ins ++ [i]) ↔ chain off ins ∧ lastEnd off ins ≤ start i.
Proof.
  revert off. induction ins as [|j ins IH]; intros off; simpl; [tauto|].
  rewrite IH. tauto.
Qed.

Lemma lastEnd_snoc (off : Z) (ins : list insertion) (i : insertion) :
  lastEnd off (ins ++ [i]) = end_ i.
Proof. revert off. induction ins as [|j ins IH]; intros off; simpl; [done|apply IH]. Qed.

(** What holds of the state whatever the tokens are: the loop does not
    dereference a nil [insert], and the insertions are in order. *)
Record ExtSafe (st : ExtractState) : Prop := {
  es_chain : chain 0 (insertions st);
  es_end : lastEnd 0 (insertions st) ≤ offset st;
  es_offset : 0 ≤ offset st;
  es_insert :
    (insert st = None ∧ insertions st = []) ∨
    (∃ ins0 i, insertions st = ins0 ++ [i] ∧ insert st = Some (length ins0));
  es_open : insert st = None → last st = EOF ∨ Type_ (last st) = Other
}.

Lemma ExtSafe_init : ExtSafe extractInit.
Proof. constructor; simpl; try done; [by left|by left]. Qed.

Local Ltac ext_safe :=
  constructor; simpl;
  first [ done | lia | by apply chain_snoc
        | rewrite lastEnd_snoc; simpl; lia
        | right; by eexists _, _ | by right ].

Lemma ExtSafe_step (st : ExtractState) (t : Token) :
  ExtSafe st →
  ∃ st', extractStep st t = Some st' ∧ ExtSafe st' ∧
         (Type_ t = Other → insert st' = insert st) ∧
         (Type_ t ≠ Other → insert st' ≠ None).
Proof.
  intros [Hch Hend Hoff Hins Hopen]. pose proof (len_nonneg (Value t)) as Hlen.
  unfold extractStep. destruct (decide (Type_ t = Other)) as [HtO|HtO].
  - eexists; split; [reflexivity|]. split; [|split; [done|by intros ?]].
    destruct (decide (last st ≠ EOF ∧ insert st ≠ None ∧ Type_ (last st) ≠ Other))
      as [(_ & Hp & _)|_].
    + destruct Hins as [[? _]|(ins0 & i & Hi & Hp')]; [done|].
      rewrite Hp', Hi, alter_last. rewrite Hi in Hch.
      apply chain_snoc in Hch as [Hch Hle]. ext_safe.
    + ext_safe.
  - destruct (decide (last st = EOF ∨ Type_ (last st) = Other)) as [Hc|Hc].
    + simpl. eexists; split; [reflexivity|]. rewrite alter_last.
      split; [|split; [done|by intros _]]. ext_safe.
    + destruct Hins as [[Hn _]|(ins0 & i & Hi & Hp)]; [by apply Hopen in Hn|].
      rewrite Hp. simpl. eexists; split; [reflexivity|].
      split; [|split; [done|by intros _]].
      rewrite Hi, alter_last. rewrite Hi in Hch, Hend.
      apply chain_snoc in Hch as [Hch Hle]. rewrite lastEnd_snoc in Hend.
      ext_safe.
Qed.

Lemma extractFrom_safe (ts : list Token) (st : ExtractState) :
  ExtSafe st →
  ∃ st', extractFrom st ts = Some st' ∧ ExtSafe st' ∧
         (insert st ≠ None ∨ Exists (λ t, Type_ t ≠ Other) ts → insert st' ≠ None).
Proof.
  revert st. induction ts as [|t ts IH]; intros st Hst.
  - exists st. split; [done|]. split; [done|]. intros [?|H]; [done|inversion H].
  - destruct (ExtSafe_step st t Hst) as (st1 & Hstep & Hst1 & HO & HnO).
    destruct (IH st1 Hst1) as (st' & Hst' & Hsafe & Hins).
    exists st'. simpl. rewrite Hstep. simpl. split; [done|]. split; [done|].
    intros H. apply Hins. destruct (decide (Type_ t = Other)) as [Ht|Ht].
    + rewrite (HO Ht). destruct H as [?|H]; [by left|]. right.
      inversion H; subst; done.
    + left. by apply HnO.
Qed.

(** The loop never panics, and its insertions are in order. *)
Lemma extract_chain (ts : list Token) :
  ∃ st, extract ts = Some st ∧ chain 0 (insertions st).
Proof.
  destruct (extractFrom_safe ts extractInit ExtSafe_init) as (st & Hst & [Hch _ _ _ _] & _).
  by exists st.
Qed.

(** The insertion list is empty exactly when every token is [Other]. *)
Lemma extract_insertions_empty (ts : list Token) (st : ExtractState) :
  extract ts = Some st →
  (insertions st = [] ↔ Forall (λ t, Type_ t = Other) ts).
Proof.
  intros Hst. split.
  - intros Hnil.
    destruct (extractFrom_safe ts extractInit ExtSafe_init) as (st' & Hst' & Hsafe & Hins).
    unfold extract in Hst. rewrite Hst in Hst'. injection Hst' as <-.
    apply Forall_forall. intros t Ht.
    destruct (decide (Type_ t = Other)) as [|Hne]; [done|]. exfalso.
    destruct (es_insert _ Hsafe) as [[Hn _]|(ins0 & i & Hi & _)].
    + apply Hins; [|done]. right. apply Exists_exists. by exists t.
    + rewrite Hnil in Hi. by destruct ins0.
  - intros Hall.
    destruct (extractFrom_all_Other ts extractInit Hall eq_refl) as (st' & Hst' & Hi & _).
    unfold extract in Hst. rewrite Hst in Hst'. by injection Hst' as <-.
Qed.

(** ** The interleaving loop *)

Section MergeProperties.
Variable rootTokens : list Token.
Variable inserts : list insertion.

Definition optlist {A} (o : option A) : list A :=
  match o with Some x => [x] | None => [] end.

(** The insertions and the root tokens that are still to come. *)
Definition pend (st : MergeState) : list insertion :=
  optlist (cur_i st) ++ drop (insertionIndex st) inserts.
Definition rest (st : MergeState) : list Token :=
  drop (tokenIndex st) rootTokens.

(** The token a left part of [splitToken] adds to the output. *)
Definition emit (l : Token) : list Token := if decide (l ≠ EOF) then [l] else [].

Lemma emit_EOF : emit EOF = [].
Proof. reflexivity. Qed.

Lemma emit_ne (l : Token) : l ≠ EOF → emit l = [l].
Proof. intros H. unfold emit. by rewrite decide_True. Qed.

Lemma values_emit (l : Token) : values (emit l) = Value l.
Proof.
  unfold emit. destruct (decide (l = EOF)) as [->|H].
  - by rewrite decide_False by (intros H; by apply H).
  - rewrite decide_True by done. simpl. by rewrite sapp_nil_r.
Qed.

Lemma nextToken_spec (ti : nat) (t : Token) (ti' : nat) :
  nextToken rootTokens ti = (t, ti') →
  (rootTokens !! ti = Some t ∧ ti' = S ti ∧
   drop ti rootTokens = t :: drop ti' rootTokens) ∨
  (t = EOF ∧ ti' = ti ∧ drop ti rootTokens = []).
Proof.
  unfold nextToken. destruct (rootTokens !! ti) as [x|] eqn:Hx; intros [= <- <-].
  - left. split; [done|]. split; [done|]. by apply drop_S.
  - right. split; [done|]. split; [done|]. apply drop_ge. by apply lookup_ge_None.
Qed.

Lemma nextInsertion_spec (ii : nat) (i : option insertion) (ii' : nat) :
  nextInsertion inserts ii = (i, ii') →
  optlist i ++ drop ii' inserts = drop ii inserts ∧
  (i = None → drop ii' inserts = []) ∧
  (∀ x, i = Some x → x ∈ inserts).
Proof.
  unfold nextInsertion. destruct (inserts !! ii) as [x|] eqn:Hx; intros [= <- <-].
  - split; [symmetry; by apply drop_S|]. split; [done|].
    intros ? [= <-]. by eapply list_elem_of_lookup_2.
  - split; [done|]. split; [|done]. intros _. apply drop_ge. by apply lookup_ge_None.
Qed.

(** The two branches of the loop body. *)
Lemma mergeStep_due (st st' : MergeState) :
  insertionDue st = true → mergeStep rootTokens inserts st = Some st' →
  ∃ i l r t' ti' i' ii',
    cur_i st = Some i ∧
    splitToken (cur_t st) (start i - moffset st) = Some (l, r) ∧
    (if decide (r = EOF) then nextToken rootTokens (tokenIndex st)
     else (r, tokenIndex st)) = (t', ti') ∧
    nextInsertion inserts (insertionIndex st) = (i', ii') ∧
    out st' = out st ++ emit l ++ tokens i ∧
    moffset st' = moffset st + len (Value l) + (end_ i - start i) ∧
    tokenIndex st' = ti' ∧ insertionIndex st' = ii' ∧
    cur_t st' = t' ∧ cur_i st' = i'.
Proof.
  intros Hdue. unfold mergeStep. rewrite Hdue.
  destruct (cur_i st) as [i|]; [|done]. simpl.
  destruct (splitToken (cur_t st) (start i - moffset st)) as [[l r]|] eqn:Hsp; [|done].
  simpl.
  destruct (if decide (r = EOF) then _ else _) as [t' ti'] eqn:Ht.
  destruct (nextInsertion inserts (insertionIndex st)) as [i' ii'] eqn:Hi.
  destruct (decide (l = EOF)) as [->|Hl].
  - rewrite decide_False by (intros H; by apply H). intros [= <-]. simpl.
    exists i, EOF, r, t', ti', i', ii'. rewrite emit_EOF, Ht. simpl.
    repeat split; try done. change (len "") with 0. lia.
  - rewrite decide_True by done. intros [= <-]. simpl.
    exists i, l, r, t', ti', i', ii'. rewrite emit_ne, Ht by done.
    repeat split; try done. by rewrite <-app_assoc.
Qed.

Lemma mergeStep_nodue (st st' : MergeState) :
  insertionDue st = false → mergeStep rootTokens inserts st = Some st' →
  ∃ t' ti',
    nextToken rootTokens (tokenIndex st) = (t', ti') ∧
    out st' = out st ++ [cur_t st] ∧
    moffset st' = moffset st + len (Value (cur_t st)) ∧
    tokenIndex st' = ti' ∧ insertionIndex st' = insertionIndex st ∧
    cur_t st' = t' ∧ cur_i st' = cur_i st.
Proof.
  intros Hdue. unfold mergeStep. rewrite Hdue.
  destruct (nextToken rootTokens (tokenIndex st)) as [t' ti'].
  intros [= <-]. by exists t', ti'.
Qed.

Lemma insertionDue_false (st : MergeState) :
  insertionDue st = false →
  cur_t st ≠ EOF ∧
  ∀ i, cur_i st = Some i → moffset st + len (Value (cur_t st)) ≤ start i.
Proof.
  unfold insertionDue. intros H. apply orb_false_iff in H as [H1 H2].
  apply bool_decide_eq_false in H1. split; [done|].
  intros i Hi. rewrite Hi in H2. apply bool_decide_eq_false in H2. lia.
Qed.

Lemma insertionDue_true (st : MergeState) :
  insertionDue st = true → cur_t st ≠ EOF →
  ∃ i, cur_i st = Some i ∧ start i < moffset st + len (Value (cur_t st)).
Proof.
  unfold insertionDue. intros H Ht. apply orb_true_iff in H as [H|H].
  { by apply bool_decide_eq_true in H. }
  destruct (cur_i st) as [i|]; [|done]. apply bool_decide_eq_true in H. eauto.
Qed.

Lemma mergeCond_false (st : MergeState) :
  mergeCond st = false → cur_t st = EOF ∧ cur_i st = None.
Proof.
  unfold mergeCond. intros H. apply orb_false_iff in H as [H1 H2].
  apply bool_decide_eq_false in H1, H2.
  split; by apply dec_stable.
Qed.

(** *** Termination *)

Definition measure (st : MergeState) : nat :=
  (2 * length (pend st) + length (rest st) +
   (if decide (cur_t st = EOF) then 0 else 1))%nat.

Lemma mergeStep_measure (st st' : MergeState) :
  mergeStep rootTokens inserts st = Some st' → (measure st' < measure st)%nat.
Proof.
  intros Hstep. unfold measure, pend, rest.
  destruct (insertionDue st) eqn:Hdue.
  - destruct (mergeStep_due _ _ Hdue Hstep)
      as (i & l & r & t' & ti' & i' & ii' & Hi & Hsp & Ht & Hni & _ & _ & -> & -> & -> & ->).
    apply nextInsertion_spec in Hni as (Hp & _ & _). rewrite Hp, Hi. simpl.
    destruct (decide (r = EOF)) as [->|Hr].
    + apply nextToken_spec in Ht as [(_ & -> & Hd)|(-> & -> & Hd)].
      * rewrite Hd. simpl. repeat case_decide; lia.
      * rewrite Hd. simpl. repeat case_decide; lia.
    + injection Ht as <- <-.
      apply splitToken_Some in Hsp as [(_ & _ & ->)|(Hne & _)]; [done|].
      rewrite decide_False by done. rewrite (decide_False (P:=cur_t st = EOF)) by done.
      lia.
  - destruct (mergeStep_nodue _ _ Hdue Hstep) as (t' & ti' & Ht & _ & _ & -> & -> & -> & ->).
    apply insertionDue_false in Hdue as [Hne _].
    rewrite (decide_False (P:=cur_t st = EOF)) by done.
    apply nextToken_spec in Ht as [(_ & -> & Hd)|(-> & -> & Hd)].
    + rewrite Hd. simpl. case_decide; lia.
    + rewrite Hd. simpl. lia.
Qed.

(** The bound on the iterations is never reached. *)
Lemma mergeLoop_fuel (fuel : nat) (st : MergeState) :
  (measure st < fuel)%nat → is_Some (mergeLoop rootTokens inserts fuel st).
Proof.
  revert st. induction fuel as [|fuel IH]; intros st Hm; [lia|].
  simpl. destruct (mergeCond st); [|by eexists].
  destruct (mergeStep rootTokens inserts st) as [st'|] eqn:Hstep; [|by eexists].
  apply IH. apply mergeStep_measure in Hstep. lia.
Qed.

Lemma measure_init : (measure (mergeInit rootTokens inserts) < mergeFuel rootTokens inserts)%nat.
Proof.
  unfold measure, pend, rest, mergeInit, mergeFuel.
  destruct (nextToken rootTokens 0) as [t ti] eqn:Ht.
  destruct (nextInsertion inserts 0) as [i ii] eqn:Hi. simpl.
  apply nextInsertion_spec in Hi as (Hp & _ & _). rewrite Hp. simpl.
  apply nextToken_spec in Ht as [(_ & -> & Hd)|(-> & -> & Hd)];
    rewrite drop_0 in Hd; rewrite drop_0.
  - assert (length rootTokens = S (length (drop 1 rootTokens))) as Hl.
    { rewrite Hd at 1. done. }
    rewrite Hl. case_decide; lia.
  - rewrite Hd. simpl. lia.
Qed.

(** The loop rule: an invariant of the body holds when the loop returns. *)
Lemma mergeLoop_inv (Inv : MergeState → Prop) :
  (∀ st st', Inv st → mergeCond st = true →
             mergeStep rootTokens inserts st = Some st' → Inv st') →
  ∀ fuel st o, Inv st → mergeLoop rootTokens inserts fuel st = Some (Some o) →
  ∃ st', Inv st' ∧ mergeCond st' = false ∧ out st' = o.
Proof.
  intros Hpres. induction fuel as [|fuel IH]; intros st o Hinv; simpl.
  - destruct (mergeCond st) eqn:Hc; [done|]. intros [= <-]. by exists st.
  - destruct (mergeCond st) eqn:Hc; [|intros [= <-]; by exists st].
    destruct (mergeStep rootTokens inserts st) as [st'|] eqn:Hstep; [|done].
    apply IH. by eapply Hpres.
Qed.

(** The loop returns when, under the invariant, the body does not panic. *)
Lemma mergeLoop_returns (Inv : MergeState → Prop) :
  (∀ st st', Inv st → mergeCond st = true →
             mergeStep rootTokens inserts st = Some st' → Inv st') →
  (∀ st, Inv st → mergeCond st = true → is_Some (mergeStep rootTokens inserts st)) →
  ∀ fuel st, Inv st → (measure st < fuel)%nat →
  ∃ o, mergeLoop rootTokens inserts fuel st = Some (Some o).
Proof.
  intros Hpres Hprog. induction fuel as [|fuel IH]; intros st Hinv Hm; [lia|].
  simpl. destruct (mergeCond st) eqn:Hc; [|by eexists].
  destruct (Hprog st Hinv Hc) as [st' Hstep]. rewrite Hstep.
  apply IH; [by eapply Hpres|]. apply mergeStep_measure in Hstep. lia.
Qed.

(** *** Safety: the cursor never passes the start of a pending insertion *)

Definition SafeInv (st : MergeState) : Prop :=
  chain (moffset st) (pend st) ∧
  (cur_i st = None → drop (insertionIndex st) inserts = []).

Lemma chain_mono (off off' : Z) (l : list insertion) :
  off' ≤ off → chain off l → chain off' l.
Proof. destruct l; simpl; [done|]. intros ? [??]. split; [lia|done]. Qed.

Lemma splitToken_left_len (t : Token) (o : Z) (l r : Token) :
  splitToken t o = Some (l, r) → t ≠ EOF → len (Value l) = o.
Proof.
  intros H Ht. apply splitToken_Some in H as [(? & _)|(_ & Ho & Hl & _)]; [done|].
  rewrite Hl. unfold len in *. rewrite length_str_take; lia.
Qed.

Lemma SafeInv_init : chain 0 inserts → SafeInv (mergeInit rootTokens inserts).
Proof.
  intros Hch. unfold mergeInit.
  destruct (nextToken rootTokens 0) as [t ti].
  destruct (nextInsertion inserts 0) as [i ii] eqn:Hi.
  apply nextInsertion_spec in Hi as (Hp & Hn & _). rewrite drop_0 in Hp.
  unfold SafeInv, pend. simpl. by rewrite Hp.
Qed.

Lemma SafeInv_step (st st' : MergeState) :
  SafeInv st → mergeCond st = true →
  mergeStep rootTokens inserts st = Some st' → SafeInv st'.
Proof.
  intros [Hch Hnone] Hc Hstep. destruct (insertionDue st) eqn:Hdue.
  - destruct (mergeStep_due _ _ Hdue Hstep)
      as (i & l & r & t' & ti' & i' & ii' & Hi & Hsp & Ht & Hni & Hout & Hoff
          & Hti & Hii & Hct & Hci).
    apply nextInsertion_spec in Hni as (Hp & Hn & _).
    unfold SafeInv, pend in *. rewrite Hci, Hii, Hp, Hoff.
    rewrite Hi in Hch. simpl in Hch. destruct Hch as [Hle Hrest].
    split; [|done]. eapply chain_mono; [|exact Hrest].
    assert (moffset st + len (Value l) ≤ start i); [|lia].
    destruct (decide (cur_t st = EOF)) as [He|Hne].
    + rewrite He in Hsp. injection Hsp as <- <-. change (len (Value EOF)) with 0. lia.
    + rewrite (splitToken_left_len _ _ _ _ Hsp Hne). lia.
  - destruct (mergeStep_nodue _ _ Hdue Hstep)
      as (t' & ti' & Ht & Hout & Hoff & Hti & Hii & Hct & Hci).
    apply insertionDue_false in Hdue as [Hne Hle].
    unfold SafeInv, pend in *. rewrite Hci, Hii, Hoff. split; [|done].
    destruct (cur_i st) as [i|] eqn:Hi; simpl in *.
    + destruct Hch as [_ Hrest]. split; [by apply Hle|done].
    + by rewrite Hnone.
Qed.

Lemma SafeInv_progress (st : MergeState) :
  SafeInv st → mergeCond st = true → is_Some (mergeStep rootTokens inserts st).
Proof.
  intros [Hch _] Hc. unfold mergeStep. destruct (insertionDue st) eqn:Hdue.
  - assert (∃ i, cur_i st = Some i ∧
                 is_Some (splitToken (cur_t st) (start i - moffset st)))
      as (i & Hi & [[l r] Hsp]).
    { destruct (decide (cur_t st = EOF)) as [He|Hne].
      - destruct (cur_i st) as [i|] eqn:Hi.
        + exists i. split; [done|]. rewrite He. by eexists.
        + unfold mergeCond in Hc. by rewrite He, Hi in Hc.
      - destruct (insertionDue_true _ Hdue Hne) as (i & Hi & Hlt).
        exists i. split; [done|]. apply splitToken_is_Some. right.
        unfold pend in Hch. rewrite Hi in Hch. simpl in Hch. destruct Hch. lia. }
    rewrite Hi. simpl. rewrite Hsp. simpl.
    destruct (decide (l ≠ EOF)); destruct (if decide (r = EOF) then _ else _);
      destruct (nextInsertion inserts (insertionIndex st)); by eexists.
  - destruct (nextToken rootTokens (tokenIndex st)). by eexists.
Qed.

(** The states the loop goes through. *)
Inductive reachable : MergeState → Prop :=
  | reachable_init : reachable (mergeInit rootTokens inserts)
  | reachable_step st st' :
      reachable st → mergeCond st = true →
      mergeStep rootTokens inserts st = Some st' → reachable st'.

Lemma reachable_safe (st : MergeState) :
  chain 0 inserts → reachable st → SafeInv st.
Proof.
  intros Hch. induction 1 as [|st st' _ IH Hc Hstep].
  - by apply SafeInv_init.
  - by eapply SafeInv_step.
Qed.

(** [interleave] never stops at its bound on the iterations. *)
Lemma interleave_fuel :
  is_Some (mergeLoop rootTokens inserts (mergeFuel rootTokens inserts)
             (mergeInit rootTokens inserts)).
Proof. apply mergeLoop_fuel, measure_init. Qed.

Lemma interleave_returns :
  chain 0 inserts → is_Some (interleave rootTokens inserts).
Proof.
  intros Hch. unfold interleave.
  destruct (mergeLoop_returns SafeInv SafeInv_step SafeInv_progress
              (mergeFuel rootTokens inserts) (mergeInit rootTokens inserts))
    as [o Ho]; [by apply SafeInv_init|apply measure_init|].
  rewrite Ho. by eexists.
Qed.

(** *** The text of the output *)

Lemma weave_empty (off off' : Z) (l : list insertion) :
  weave off "" l = weave off' "" l.
Proof.
  destruct l as [|i l]; simpl; [done|].
  by rewrite !str_take_all, !str_drop_all by (simpl; lia).
Qed.

Definition TextInv (K : string) (st : MergeState) : Prop :=
  SafeInv st ∧ (cur_t st = EOF → rest st = []) ∧
  values (out st) +:+
    weave (moffset st) (Value (cur_t st) +:+ values (rest st)) (pend st) = K.

Lemma nextToken_values (ti : nat) (t : Token) (ti' : nat) :
  nextToken rootTokens ti = (t, ti') →
  values (drop ti rootTokens) = Value t +:+ values (drop ti' rootTokens).
Proof.
  intros H. apply nextToken_spec in H as [(_ & -> & ->)|(-> & -> & ->)]; done.
Qed.

Lemma nextToken_EOF (ti : nat) (ti' : nat) :
  EOF ∉ rootTokens → nextToken rootTokens ti = (EOF, ti') →
  ti' = ti ∧ drop ti rootTokens = [].
Proof.
  intros Hr H. apply nextToken_spec in H as [(Hl & _)|(_ & -> & ->)]; [|done].
  apply list_elem_of_lookup_2 in Hl. done.
Qed.

Lemma TextInv_init :
  EOF ∉ rootTokens → chain 0 inserts →
  TextInv (weave 0 (values rootTokens) inserts) (mergeInit rootTokens inserts).
Proof.
  intros Hroot Hch. split; [by apply SafeInv_init|]. unfold mergeInit, rest, pend.
  destruct (nextToken rootTokens 0) as [t ti] eqn:Ht.
  destruct (nextInsertion inserts 0) as [i ii] eqn:Hi. simpl.
  apply nextInsertion_spec in Hi as (Hp & _ & _). rewrite drop_0 in Hp. rewrite Hp.
  pose proof (nextToken_values _ _ _ Ht) as Hv. rewrite drop_0 in Hv.
  rewrite <-Hv. split; [|done].
  intros ->. by destruct (nextToken_EOF _ _ Hroot Ht) as [-> ?].
Qed.

Lemma TextInv_step (K : string) (st st' : MergeState) :
  EOF ∉ rootTokens → TextInv K st → mergeCond st = true →
  mergeStep rootTokens inserts st = Some st' → TextInv K st'.
Proof.
  intros Hroot (Hsafe & Heof & HK) Hc Hstep.
  split; [by eapply SafeInv_step|].
  destruct Hsafe as [Hch Hnone]. unfold rest, pend in *.
  destruct (insertionDue st) eqn:Hdue.
  - destruct (mergeStep_due _ _ Hdue Hstep)
      as (i & l & r & t' & ti' & i' & ii' & Hi & Hsp & Ht & Hni & Hout & Hoff
          & Hti & Hii & Hct & Hci).
    apply nextInsertion_spec in Hni as (Hp & _ & _).
    rewrite Hi in HK, Hch. simpl in HK, Hch. destruct Hch as [Hle _].
    rewrite Hout, Hoff, Hti, Hii, Hct, Hci, Hp, !values_app, values_emit.
    destruct (decide (cur_t st = EOF)) as [He|Hne].
    + (* the root tokens are exhausted *)
      rewrite He in Hsp. injection Hsp as <- <-.
      rewrite decide_True in Ht by done.
      rewrite He, (Heof He) in HK.
      assert (t' = EOF ∧ ti' = tokenIndex st) as [-> ->].
      { apply nextToken_spec in Ht as [(_ & _ & Hd)|(? & ? & _)]; [|done].
        rewrite (Heof He) in Hd. done. }
      split; [by intros _; apply Heof|]. rewrite (Heof He).
      simpl in *. rewrite !sapp_nil_l in *.
      rewrite str_take_all, str_drop_all in HK by (simpl; lia).
      rewrite sapp_nil_l in HK. rewrite sapp_assoc.
      by rewrite (weave_empty _ (end_ i)).
    + (* the insertion falls inside the current root token *)
      destruct (insertionDue_true _ Hdue Hne) as (i0 & Hi0 & Hlt).
      rewrite Hi in Hi0. injection Hi0 as <-.
      pose proof (splitToken_left_len _ _ _ _ Hsp Hne) as Hll.
      apply splitToken_Some in Hsp as [(? & _)|(_ & Ho & Hl & Hr & _ & _)]; [done|].
      assert (Hg : (Z.to_nat (start i - moffset st) ≤ String.length (Value (cur_t st)))%nat).
      { unfold len in *. lia. }
      assert (Hrne : r ≠ EOF).
      { intros ->. assert (String.length (Value EOF) = 0%nat) as H0 by done.
        rewrite Hr, length_str_drop in H0. unfold len in *. lia. }
      rewrite decide_False in Ht by done. injection Ht as <- <-.
      split; [done|].
      rewrite str_take_app_le, str_drop_app_le in HK by done.
      rewrite <-Hl, <-Hr in HK. rewrite !sapp_assoc.
      replace (moffset st + len (Value l) + (end_ i - start i)) with (end_ i) by lia.
      done.
  - destruct (mergeStep_nodue _ _ Hdue Hstep)
      as (t' & ti' & Ht & Hout & Hoff & Hti & Hii & Hct & Hci).
    apply insertionDue_false in Hdue as [Hne Hle].
    rewrite Hout, Hoff, Hti, Hii, Hct, Hci, values_app. simpl.
    rewrite sapp_nil_r, sapp_assoc.
    split.
    { intros ->. by destruct (nextToken_EOF _ _ Hroot Ht) as [-> ?]. }
    rewrite (nextToken_values _ _ _ Ht) in HK.
    destruct (cur_i st) as [i|] eqn:Hi; simpl in *.
    + specialize (Hle i eq_refl).
      assert (Hg : (String.length (Value (cur_t st))
                    ≤ Z.to_nat (start i - moffset st))%nat).
      { unfold len in *. lia. }
      rewrite str_take_app_ge, str_drop_app_ge in HK by done.
      rewrite sapp_assoc in HK.
      replace (Z.to_nat (start i - (moffset st + len (Value (cur_t st)))))
        with (Z.to_nat (start i - moffset st) - String.length (Value (cur_t st)))%nat
        by (unfold len; lia).
      done.
    + rewrite Hnone in * by done. done.
Qed.

(** The text of the output is the root text with the insertions spliced in. *)
Lemma interleave_values :
  EOF ∉ rootTokens → chain 0 inserts →
  ∃ o, interleave rootTokens inserts = Some o ∧
       values o = weave 0 (values rootTokens) inserts.
Proof.
  intros Hroot Hch. destruct (interleave_returns Hch) as [o Ho].
  exists o. split; [done|]. unfold interleave in Ho.
  destruct (mergeLoop rootTokens inserts _ _) as [[o'|]|] eqn:Hloop; [|done..].
  simpl in Ho. injection Ho as ->.
  destruct (mergeLoop_inv (TextInv (weave 0 (values rootTokens) inserts))
              (λ st st' H, TextInv_step _ st st' Hroot H) _ _ _
              (TextInv_init Hroot Hch) Hloop)
    as (st' & ((_ & Hnone) & Heof & HK) & Hcond & <-).
  apply mergeCond_false in Hcond as [Ht Hi].
  unfold pend, rest in *. rewrite Ht, Hi, (Heof Ht), (Hnone Hi) in HK.
  simpl in HK. by rewrite sapp_nil_l, sapp_nil_r in HK.
Qed.

(** *** Where the tokens of the output come from *)

Section Provenance.
Variable P : Token → Prop.
Hypothesis HPins : ∀ i tok, i ∈ inserts → tok ∈ tokens i → P tok.
Hypothesis HProot :
  ∀ tok rt, tok ≠ EOF → rt ∈ rootTokens → Type_ tok = Type_ rt → P tok.

Definition fromRoot (t : Token) : Prop :=
  t = EOF ∨ ∃ rt, rt ∈ rootTokens ∧ Type_ t = Type_ rt.

Definition ProvInv (st : MergeState) : Prop :=
  Forall P (out st) ∧ fromRoot (cur_t st) ∧ (∀ i, cur_i st = Some i → i ∈ inserts).

Lemma nextToken_fromRoot (ti : nat) (t : Token) (ti' : nat) :
  nextToken rootTokens ti = (t, ti') → fromRoot t.
Proof.
  intros H. apply nextToken_spec in H as [(Hl & _)|(-> & _)]; [|by left].
  right. exists t. split; [|done]. by eapply list_elem_of_lookup_2.
Qed.

Lemma ProvInv_init : ProvInv (mergeInit rootTokens inserts).
Proof.
  unfold mergeInit.
  destruct (nextToken rootTokens 0) as [t ti] eqn:Ht.
  destruct (nextInsertion inserts 0) as [i ii] eqn:Hi.
  apply nextInsertion_spec in Hi as (_ & _ & Hin).
  split; [constructor|]. split; [by eapply nextToken_fromRoot|done].
Qed.

Lemma ProvInv_step (st st' : MergeState) :
  ProvInv st → mergeCond st = true →
  mergeStep rootTokens inserts st = Some st' → ProvInv st'.
Proof.
  intros (Hout & Ht & Hi) Hc Hstep. unfold ProvInv.
  destruct (insertionDue st) eqn:Hdue.
  - destruct (mergeStep_due _ _ Hdue Hstep)
      as (i & l & r & t' & ti' & i' & ii' & Hci & Hsp & Hnt & Hni & -> & _
          & _ & _ & -> & ->).
    apply nextInsertion_spec in Hni as (_ & _ & Hin).
    assert (Hlr : (l = EOF ∨ P l) ∧ fromRoot r).
    { apply splitToken_Some in Hsp as [(_ & -> & ->)|(Hne & _ & _ & _ & Hl & Hr)].
      { split; by left. }
      destruct Ht as [?|(rt & Hrt & Hty)]; [done|]. split.
      - destruct Hl as [?|Hl]; [by left|].
        destruct (decide (l = EOF)); [by left|right].
        apply (HProot l rt); [done..|congruence].
      - destruct Hr as [?|Hr]; [by left|right]. exists rt. split; [done|congruence]. }
    destruct Hlr as [Hl Hr]. split; [|split; [|done]].
    + apply Forall_app. split; [done|]. apply Forall_app. split.
      * destruct (decide (l = EOF)) as [->|Hle]; [by rewrite emit_EOF|].
        rewrite emit_ne by done. destruct Hl; [done|]. by repeat constructor.
      * apply Forall_forall. intros tok Htok. apply (HPins i); [by apply Hi|done].
    + destruct (decide (r = EOF)); [by eapply nextToken_fromRoot|].
      by injection Hnt as <- _.
  - destruct (mergeStep_nodue _ _ Hdue Hstep)
      as (t' & ti' & Hnt & -> & _ & _ & _ & -> & ->).
    apply insertionDue_false in Hdue as [Hne _].
    split; [|split; [by eapply nextToken_fromRoot|done]].
    apply Forall_app. split; [done|]. repeat constructor.
    destruct Ht as [?|(rt & Hrt & Hty)]; [done|]. by apply (HProot _ rt).
Qed.

Lemma interleave_Forall (o : list Token) :
  interleave rootTokens inserts = Some o → Forall P o.
Proof.
  unfold interleave. intros Ho.
  destruct (mergeLoop rootTokens inserts _ _) as [[o'|]|] eqn:Hloop; [|done..].
  simpl in Ho. injection Ho as ->.
  destruct (mergeLoop_inv ProvInv ProvInv_step _ _ _ ProvInv_init Hloop)
    as (st' & (Hout & _) & _ & <-).
  done.
Qed.

End Provenance.

End MergeProperties.

(** ** Draining and coalescing *)

Lemma drain_no_EOF (it : list Token) : EOF ∉ drain it.
Proof.
  induction it as [|t it IH]; simpl; [apply not_elem_of_nil|].
  destruct (decide (t = EOF)); [apply not_elem_of_nil|].
  apply not_elem_of_cons. split; [congruence|done].
Qed.

Lemma drain_id (l : list Token) : EOF ∉ l → drain l = l.
Proof.
  induction l as [|t l IH]; [done|]. intros H.
  apply not_elem_of_cons in H as [Ht Hl]. simpl.
  rewrite decide_False by congruence. by rewrite IH.
Qed.

Lemma drain_elem_of (it : list Token) (t : Token) : t ∈ drain it → t ∈ it.
Proof.
  induction it as [|x it IH]; simpl; [done|].
  destruct (decide (x = EOF)); [by intros ?%elem_of_nil|].
  intros [->|H]%elem_of_cons; [by left|right; auto].
Qed.

Lemma sapp_eq_nil (a b : string) : a +:+ b = "" → a = "".
Proof. by destruct a. Qed.

Lemma coalesce_values (ts : list Token) : values (coalesce ts) = values ts.
Proof.
  induction ts as [|t ts IH]; [done|]. simpl.
  destruct (coalesce ts) as [|t' r]; simpl in *; [by rewrite <-IH|].
  destruct (decide (Type_ t = Type_ t')); simpl; rewrite <-IH; [|done].
  by rewrite sapp_assoc.
Qed.

Lemma coalesce_no_EOF (ts : list Token) : EOF ∉ ts → EOF ∉ coalesce ts.
Proof.
  induction ts as [|t ts IH]; [done|]. intros H.
  apply not_elem_of_cons in H as [Ht Hts]. specialize (IH Hts). simpl.
  destruct (coalesce ts) as [|t' r].
  { apply not_elem_of_cons. split; [congruence|apply not_elem_of_nil]. }
  apply not_elem_of_cons in IH as [Ht' Hr].
  destruct (decide (Type_ t = Type_ t')) as [Hty|Hty].
  - apply not_elem_of_cons. split; [|done]. intros [= H0 Hv].
    symmetry in Hv. apply sapp_eq_nil in Hv. apply Ht.
    destruct t as [ty v]. simpl in H0, Hv. by rewrite <-H0, Hv.
  - apply not_elem_of_cons. split; [congruence|].
    apply not_elem_of_cons. split; [congruence|done].
Qed.

Lemma coalesce_types (ts : list Token) (t : Token) :
  t ∈ coalesce ts → ∃ t', t' ∈ ts ∧ Type_ t = Type_ t'.
Proof.
  revert t. induction ts as [|x ts IH]; intros t; simpl; [by intros ?%elem_of_nil|].
  destruct (coalesce ts) as [|t' r].
  { intros ->%list_elem_of_singleton. exists x. split; [by left|done]. }
  assert (∀ u, u ∈ t' :: r → ∃ t'0, t'0 ∈ x :: ts ∧ Type_ u = Type_ t'0) as IH'.
  { intros u Hu. destruct (IH u Hu) as (v & Hv & ?). exists v. split; [by right|done]. }
  destruct (decide (Type_ x = Type_ t')) as [Hty|Hty].
  - intros [->|H]%elem_of_cons.
    + exists x. split; [by left|done].
    + apply IH'. by right.
  - intros [->|H]%elem_of_cons; [|by apply IH'].
    exists x. split; [by left|done].
Qed.

Lemma Tokenise_Coalesce (lexer : Lexer) (options : TokeniseOptions) (text : string)
    (w : World) :
  Tokenise (Coalesce lexer) options text w =
  match Lexer_Tokenise lexer options text w with
  | (_, Some err) => Some ([], Some err)
  | (Some it, None) => Some (coalesce (drain it), None)
  | (None, None) => None
  end.
Proof.
  unfold Tokenise, Coalesce. simpl.
  destruct (Lexer_Tokenise lexer options text w) as [[it|] [e|]]; try done.
  rewrite drain_id; [done|]. apply coalesce_no_EOF, drain_no_EOF.
Qed.

(** A materialised token list holds no [EOF]. *)
Lemma Tokenise_no_EOF (lexer : Lexer) (options : TokeniseOptions) (text : string)
    (w : World) (ts : list Token) (err : option error) :
  Tokenise lexer options text w = Some (ts, err) → EOF ∉ ts.
Proof.
  unfold Tokenise.
  destruct (Lexer_Tokenise lexer options text w) as [[it|] [e|]]; intros [= <- _];
    try apply not_elem_of_nil.
  apply drain_no_EOF.
Qed.

(** ** The two entry points *)

Lemma delegatingLexer_Tokenise_eq (d : delegatingLexer) (options : TokeniseOptions)
    (text : string) (w : World) :
  delegatingLexer_Tokenise d options text w =
    '(tokens, err) ← Tokenise (Coalesce (language d)) options text w;
    match err with
    | Some e => Some (None, Some e)
    | None =>
        st ← extract tokens;
        if decide (length (insertions st) = 0%nat) then
          Some (Lexer_Tokenise (root d) options text w)
        else
          '(rootTokens, err) ← Tokenise (Coalesce (root d)) options (others st) w;
          match err with
          | Some e => Some (None, Some e)
          | None => out ← interleave rootTokens (insertions st); Some (Some out, None)
          end
    end.
Proof.
  unfold delegatingLexer_Tokenise, delegatingLexer_tokenise.
  destruct (Tokenise (Coalesce (language d)) options text w) as [[tokens [e|]]|];
    simpl; [done| |done].
  destruct (extract tokens) as [st|]; simpl; [|done].
  destruct (decide (length (insertions st) = 0%nat)).
  { by destruct (Lexer_Tokenise (root d) options text w). }
  destruct (Tokenise (Coalesce (root d)) options (others st) w) as [[rts [e|]]|];
    simpl; [done| |done].
  by destruct (interleave rts (insertions st)).
Qed.

(** What a call of [Tokenise] that returned an iterator has gone through:
    the fast path, or the merge. *)
Lemma delegatingLexer_Tokenise_inv (d : delegatingLexer) (options : TokeniseOptions)
    (text : string) (w : World) (it : Iterator) (err : option error) :
  delegatingLexer_Tokenise d options text w = Some (Some it, err) →
  ∃ tokens st,
    Tokenise (Coalesce (language d)) options text w = Some (tokens, None) ∧
    extract tokens = Some st ∧
    ((insertions st = [] ∧ Lexer_Tokenise (root d) options text w = (Some it, err)) ∨
     (insertions st ≠ [] ∧ err = None ∧
      ∃ rootTokens,
        Tokenise (Coalesce (root d)) options (others st) w = Some (rootTokens, None) ∧
        interleave rootTokens (insertions st) = Some it)).
Proof.
  rewrite delegatingLexer_Tokenise_eq.
  destruct (Tokenise (Coalesce (language d)) options text w) as [[tokens [e|]]|];
    simpl; [done| |done].
  destruct (extract tokens) as [st|] eqn:Hst; simpl; [|done].
  intros H. exists tokens, st. split; [done|]. split; [done|].
  destruct (decide (length (insertions st) = 0%nat)) as [Hl|Hl].
  { left. split; [by destruct (insertions st)|]. by injection H. }
  right. split; [by destruct (insertions st)|].
  destruct (Tokenise (Coalesce (root d)) options (others st) w)
    as [[rts [e|]]|] eqn:Hr; simpl in H; [done| |done].
  destruct (interleave rts (insertions st)) as [o|] eqn:Ho; simpl in H; [|done].
  injection H as <- <-. split; [done|]. by exists rts.
Qed.

(** *** The spans of the insertions *)

Lemma chain_consecutive (off : Z) (l : list insertion) (k : nat) (i j : insertion) :
  chain off l → l !! k = Some i → l !! S k = Some j → end_ i ≤ start j.
Proof.
  revert off k. induction l as [|x l IH]; intros off k Hch Hi Hj; [done|].
  destruct Hch as [_ Hch]. destruct k as [|k]; simpl in *.
  - injection Hi as ->. destruct l as [|y l]; [done|].
    injection Hj as ->. by destruct Hch.
  - by eapply IH.
Qed.

(** Every insertion but the last one spans the text of its tokens; the last
    one does too when text that is [Other] follows it. *)
Lemma extract_spans (ts : list Token) (st : ExtractState) :
  EOF ∉ ts → extract ts = Some st →
  ∃ ins0, (insertions st = ins0 ∨ ∃ i, insertions st = ins0 ++ [i]) ∧
          Forall (λ i, end_ i - start i = len (values (tokens i))) ins0.
Proof.
  intros Hts Hst.
  destruct (extractFrom_inv ts [] extractInit ExtInv_init Hts) as (st' & Hst' & Hinv).
  unfold extract in Hst. rewrite Hst in Hst'. injection Hst' as <-.
  destruct Hinv as [_ _ _ _ _ Hshape].
  destruct (decide (last st = EOF ∨ Type_ (last st) = Other)) as [Hc|Hc].
  - destruct Hshape as (B & txt & o & tr & HW & _).
    exists (insertions st). split; [by left|]. by eapply Ws_closed.
  - destruct Hshape as (ins0 & i & B & txt & o & tr & Hi & HW & _).
    exists ins0. split; [right; by exists i|]. by eapply Ws_closed.
Qed.

(** The insertions start one after the other. *)
Lemma extract_starts_sorted (ts : list Token) (st : ExtractState) (k : nat)
    (i j : insertion) :
  EOF ∉ ts → extract ts = Some st →
  insertions st !! k = Some i → insertions st !! S k = Some j →
  start i ≤ start j.
Proof.
  intros Hts Hst Hi Hj.
  destruct (extract_chain ts) as (st' & Hst' & Hch).
  rewrite Hst in Hst'. injection Hst' as <-.
  pose proof (chain_consecutive _ _ _ _ _ Hch Hi Hj) as Hle.
  destruct (extract_spans ts st Hts Hst) as (ins0 & Hins & Hall).
  assert (Hin : ins0 !! k = Some i).
  { destruct Hins as [<-|(x & Hx)]; [done|].
    rewrite Hx in Hi, Hj. apply lookup_lt_Some in Hj.
    rewrite length_app in Hj. simpl in Hj.
    by rewrite lookup_app_l in Hi by lia. }
  pose proof (proj1 (Forall_lookup _ _) Hall k i Hin) as Hspan. simpl in Hspan.
  pose proof (len_nonneg (values (tokens i))). lia.
Qed.

(** The fast path: nothing to insert, the root tokenizer runs on the text. *)
Lemma delegatingLexer_tokenise_fast (d : delegatingLexer) (options : TokeniseOptions)
    (tokeniseFn : tokenizeWithOriginalLen)
    (tokenizeRootFn : tokenizeRootWithOriginalLen) (text : string) (w : World)
    (tokens : list Token) (oi : OriginalLenIterator) :
  tokeniseFn (Coalesce (language d)) options text w = Some (tokens, oi, None) →
  Forall (λ t, Type_ t = Other) tokens →
  delegatingLexer_tokenise d options tokeniseFn tokenizeRootFn text w
  = tokenizeRootFn options text w.
Proof.
  intros H Hall. destruct (extract_chain tokens) as (st & Hst & _).
  unfold delegatingLexer_tokenise. rewrite H. simpl. rewrite Hst. simpl.
  rewrite decide_True; [done|].
  by rewrite (proj2 (extract_insertions_empty _ _ Hst) Hall).
Qed.

(** What a call of [tokenise] that returned an iterator has gone through. *)
Lemma delegatingLexer_tokenise_inv (d : delegatingLexer) (options : TokeniseOptions)
    (tokeniseFn : tokenizeWithOriginalLen)
    (tokenizeRootFn : tokenizeRootWithOriginalLen) (text : string) (w : World)
    (it : Iterator) (oi' : OriginalLenIterator) (err : option error) :
  delegatingLexer_tokenise d options tokeniseFn tokenizeRootFn text w
  = Some (Some it, oi', err) →
  ∃ tokens oi st,
    tokeniseFn (Coalesce (language d)) options text w = Some (tokens, oi, None) ∧
    extract tokens = Some st ∧
    ((insertions st = [] ∧ tokenizeRootFn options text w = Some (Some it, oi', err)) ∨
     (insertions st ≠ [] ∧ err = None ∧ oi' = oi ∧
      ∃ rootTokens,
        Tokenise (Coalesce (root d)) options (others st) w = Some (rootTokens, None) ∧
        interleave rootTokens (insertions st) = Some it)).
Proof.
  unfold delegatingLexer_tokenise.
  destruct (tokeniseFn (Coalesce (language d)) options text w)
    as [[[tokens oi] [e|]]|] eqn:Hl; simpl; [done| |done].
  destruct (extract tokens) as [st|] eqn:Hst; simpl; [|done].
  intros H. exists tokens, oi, st. split; [done|]. split; [done|].
  destruct (decide (length (insertions st) = 0%nat)) as [Hlen|Hlen].
  { left. split; [by destruct (insertions st)|done]. }
  right. split; [by destruct (insertions st)|].
  destruct (Tokenise (Coalesce (root d)) options (others st) w)
    as [[rts [e|]]|] eqn:Hr; simpl in H; [done| |done].
  destruct (interleave rts (insertions st)) as [o|] eqn:Ho; simpl in H; [|done].
  injection H as <- <- <-. split; [done|]. split; [done|]. by exists rts.
Qed.

(** ** The claims *)

(** C7: the wrapper forwards each capability to the sub-lexer the source
    names: [AnalyseText] gives the score of the root lexer; [SetRegistry]
    passes the registry to the root lexer and then to the language lexer;
    [SetAnalyser] passes the analyser to the root lexer only; [Config] gives
    the configuration of the language lexer; and both setters return the
    wrapper itself. *)
Theorem delegatingLexer_forwarding (d : delegatingLexer) (w : World) :
  (∀ text, delegatingLexer_AnalyseText d text w = Lexer_AnalyseText (root d) text w) ∧
  (∀ r, delegatingLexer_SetRegistry d r w =
        (d, Lexer_SetRegistry (language d) r (Lexer_SetRegistry (root d) r w))) ∧
  (∀ analyser, delegatingLexer_SetAnalyser d analyser w =
               (d, Lexer_SetAnalyser (root d) analyser w)) ∧
  delegatingLexer_Config d w = Lexer_Config (language d) w ∧
  (∀ r l, root (DelegatingLexer r l) = r ∧ language (DelegatingLexer r l) = l).
Proof. repeat split. Qed.

(** C8: an error of a sub-tokenizer invocation comes back as it is, with a
    nil iterator and without any token: the error of the language pass
    ([tokeniseFn], and [Tokenise] at the plain entry point) and the error of
    the root pass over the "Other" buffer. The error those invocations report
    is the error of the sub-lexer itself. *)
Theorem tokenise_error_propagation (d : delegatingLexer) (options : TokeniseOptions)
    (tokeniseFn : tokenizeWithOriginalLen)
    (tokenizeRootFn : tokenizeRootWithOriginalLen) (text : string) (w : World) :
  (∀ tokens oi e,
     tokeniseFn (Coalesce (language d)) options text w = Some (tokens, oi, Some e) →
     delegatingLexer_tokenise d options tokeniseFn tokenizeRootFn text w
     = Some (None, zeroOriginalLenIterator, Some e)) ∧
  (∀ tokens oi st rootTokens e,
     tokeniseFn (Coalesce (language d)) options text w = Some (tokens, oi, None) →
     extract tokens = Some st → insertions st ≠ [] →
     Tokenise (Coalesce (root d)) options (others st) w = Some (rootTokens, Some e) →
     delegatingLexer_tokenise d options tokeniseFn tokenizeRootFn text w
     = Some (None, zeroOriginalLenIterator, Some e)) ∧
  (∀ tokens e,
     Tokenise (Coalesce (language d)) options text w = Some (tokens, Some e) →
     delegatingLexer_Tokenise d options text w = Some (None, Some e)) ∧
  (∀ tokens st rootTokens e,
     Tokenise (Coalesce (language d)) options text w = Some (tokens, None) →
     extract tokens = Some st → insertions st ≠ [] →
     Tokenise (Coalesce (root d)) options (others st) w = Some (rootTokens, Some e) →
     delegatingLexer_Tokenise d options text w = Some (None, Some e)) ∧
  (∀ lexer s it e,
     Lexer_Tokenise lexer options s w = (it, Some e) →
     Tokenise (Coalesce lexer) options s w = Some ([], Some e)).
Proof.
  split; [|split; [|split; [|split]]].
  - intros tokens oi e H. unfold delegatingLexer_tokenise. by rewrite H.
  - intros tokens oi st rts e H Hst Hins Hr. unfold delegatingLexer_tokenise.
    rewrite H. simpl. rewrite Hst. simpl.
    rewrite decide_False by (by destruct (insertions st)).
    by rewrite Hr.
  - intros tokens e H. by rewrite delegatingLexer_Tokenise_eq, H.
  - intros tokens st rts e H Hst Hins Hr. rewrite delegatingLexer_Tokenise_eq, H.
    simpl. rewrite Hst. simpl.
    rewrite decide_False by (by destruct (insertions st)).
    by rewrite Hr.
  - intros lexer s it e H. rewrite Tokenise_Coalesce, H. by destruct it.
Qed.

(** C5: when the coalesced language pass classifies every token as [Other]
    (equivalently, when the insertion list is empty), the result is the result
    of the root tokenizer on the original text: [tokenizeRootFn options text]
    in general, and the root lexer's own [Tokenise] at the plain entry point. *)
Theorem tokenise_fast_path (d : delegatingLexer) (options : TokeniseOptions)
    (tokeniseFn : tokenizeWithOriginalLen)
    (tokenizeRootFn : tokenizeRootWithOriginalLen) (text : string) (w : World) :
  (∀ tokens oi,
     tokeniseFn (Coalesce (language d)) options text w = Some (tokens, oi, None) →
     Forall (λ t, Type_ t = Other) tokens →
     delegatingLexer_tokenise d options tokeniseFn tokenizeRootFn text w
     = tokenizeRootFn options text w) ∧
  (∀ tokens,
     Tokenise (Coalesce (language d)) options text w = Some (tokens, None) →
     Forall (λ t, Type_ t = Other) tokens →
     delegatingLexer_Tokenise d options text w
     = Some (Lexer_Tokenise (root d) options text w)) ∧
  (∀ tokens, ∃ st, extract tokens = Some st ∧
     (insertions st = [] ↔ Forall (λ t, Type_ t = Other) tokens)).
Proof.
  split; [|split].
  - intros tokens oi. apply delegatingLexer_tokenise_fast.
  - intros tokens H Hall. destruct (extract_chain tokens) as (st & Hst & _).
    rewrite delegatingLexer_Tokenise_eq, H. simpl. rewrite Hst. simpl.
    rewrite decide_True; [done|].
    by rewrite (proj2 (extract_insertions_empty _ _ Hst) Hall).
  - intros tokens. destruct (extract_chain tokens) as (st & Hst & _).
    exists st. split; [done|]. by apply extract_insertions_empty.
Qed.

(** The output of the merge holds no [EOF] when the insertions hold none. *)
Lemma interleave_no_EOF (rootTokens : list Token) (inserts : list insertion)
    (o : list Token) :
  (∀ i tok, i ∈ inserts → tok ∈ tokens i → tok ≠ EOF) →
  interleave rootTokens inserts = Some o → EOF ∉ o.
Proof.
  intros Hins Ho.
  pose proof (interleave_Forall rootTokens inserts (λ t, t ≠ EOF) Hins
                (λ tok rt H _ _, H) o Ho) as Hall.
  intros Hin. by apply (proj1 (Forall_forall _ _) Hall EOF Hin).
Qed.

Lemma extract_tokens_elem (ts : list Token) (st : ExtractState) (i : insertion)
    (tok : Token) :
  EOF ∉ ts → extract ts = Some st → i ∈ insertions st → tok ∈ tokens i →
  tok ∈ ts ∧ Type_ tok ≠ Other.
Proof.
  intros Hts Hst Hi Htok.
  destruct (extract_spec ts Hts) as (st' & Hst' & _ & Hall & _).
  rewrite Hst in Hst'. injection Hst' as <-.
  apply (proj1 (Forall_forall _ _) Hall) in Hi.
  by apply (proj1 (Forall_forall _ _) Hi).
Qed.

(** C9: on the merge path (the language pass has found a token that is not
    [Other]) the token sequence handed to [Literator] holds no [EOF]: neither
    an empty left part of a split nor the sentinel of an exhausted cursor is
    ever appended. This holds of [tokenise] for a [tokeniseFn] whose token list
    holds no [EOF], and of the plain entry point, whose token list is
    materialised by [Tokenise]. *)
Theorem Tokenise_output_no_EOF (d : delegatingLexer) (options : TokeniseOptions)
    (tokeniseFn : tokenizeWithOriginalLen)
    (tokenizeRootFn : tokenizeRootWithOriginalLen) (text : string) (w : World) :
  (∀ tokens oi it oi' err,
     tokeniseFn (Coalesce (language d)) options text w = Some (tokens, oi, None) →
     EOF ∉ tokens →
     ¬ Forall (λ t, Type_ t = Other) tokens →
     delegatingLexer_tokenise d options tokeniseFn tokenizeRootFn text w
     = Some (Some it, oi', err) →
     EOF ∉ it) ∧
  (∀ tokens it err,
     Tokenise (Coalesce (language d)) options text w = Some (tokens, None) →
     ¬ Forall (λ t, Type_ t = Other) tokens →
     delegatingLexer_Tokenise d options text w = Some (Some it, err) →
     EOF ∉ it).
Proof.
  assert (Hmerged : ∀ tokens st rts it,
            EOF ∉ tokens → extract tokens = Some st →
            interleave rts (insertions st) = Some it → EOF ∉ it).
  { intros tokens st rts it Hno Hst Ho.
    eapply interleave_no_EOF; [|exact Ho]. intros i tok Hi Htok.
    destruct (extract_tokens_elem _ _ _ _ Hno Hst Hi Htok) as [Hin _].
    by intros ->. }
  split.
  - intros tokens oi it oi' err Hlang Hno Hmerge Hres.
    destruct (delegatingLexer_tokenise_inv _ _ _ _ _ _ _ _ _ Hres)
      as (tokens' & oi0 & st & Hlang' & Hst & Hpath).
    rewrite Hlang in Hlang'. injection Hlang' as <- <-.
    destruct Hpath as [[Hnil _]|(_ & _ & _ & rts & _ & Ho)].
    { exfalso. apply Hmerge. by apply (extract_insertions_empty _ _ Hst). }
    by eapply Hmerged.
  - intros tokens it err Hlang Hmerge Hres.
    destruct (delegatingLexer_Tokenise_inv _ _ _ _ _ _ Hres)
      as (tokens' & st & Hlang' & Hst & Hpath).
    rewrite Hlang in Hlang'. injection Hlang' as <-.
    destruct Hpath as [[Hnil _]|(_ & _ & rts & _ & Ho)].
    { exfalso. apply Hmerge. by apply (extract_insertions_empty _ _ Hst). }
    apply Tokenise_no_EOF in Hlang. by eapply Hmerged.
Qed.

(** C4, as amended: no token of type [Other] of the language pass reaches
    the output; a token of the output has the type [Other] only when the root
    lexer itself emits a token of that type. So, for a root lexer that emits
    no [Other] token, no token of the result has the type [Other]. *)
Theorem Tokenise_output_not_Other (d : delegatingLexer) (options : TokeniseOptions)
    (text : string) (w : World) (it : Iterator) (err : option error) :
  (∀ s rit e rt, Lexer_Tokenise (root d) options s w = (Some rit, e) →
                 rt ∈ rit → Type_ rt ≠ Other) →
  delegatingLexer_Tokenise d options text w = Some (Some it, err) →
  ∀ tok, tok ∈ it → Type_ tok ≠ Other.
Proof.
  intros Hroot Hres.
  destruct (delegatingLexer_Tokenise_inv _ _ _ _ _ _ Hres)
    as (tokens & st & Hlang & Hst & Hpath).
  destruct Hpath as [[_ Hfast]|(_ & _ & rts & Hrts & Ho)].
  { intros tok Htok. by eapply Hroot. }
  apply Forall_forall.
  apply (interleave_Forall rts (insertions st) (λ t, Type_ t ≠ Other)); [| |done].
  - intros i tok Hi Htok. apply Tokenise_no_EOF in Hlang.
    by destruct (extract_tokens_elem _ _ _ _ Hlang Hst Hi Htok).
  - intros tok rt _ Hrt Hty. rewrite Hty.
    rewrite Tokenise_Coalesce in Hrts.
    destruct (Lexer_Tokenise (root d) options (others st) w) as [[rit|] [e|]] eqn:Hr;
      try done.
    injection Hrts as <-.
    destruct (coalesce_types _ _ Hrt) as (rt' & Hrt' & ->).
    eapply Hroot; [exact Hr|]. by apply drain_elem_of.
Qed.

(** C1, as amended: when the token values of the language lexer concatenate
    to the input text, and the token values of the root lexer concatenate to
    whatever text it is given, [Tokenise] returns an iterator whose token
    values concatenate, in order, to the input text. *)
Theorem Tokenise_reconstruction (d : delegatingLexer) (options : TokeniseOptions)
    (text : string) (w : World) :
  (∃ lit, Lexer_Tokenise (language d) options text w = (Some lit, None) ∧
          values (drain lit) = text) →
  (∀ s, ∃ rit, Lexer_Tokenise (root d) options s w = (Some rit, None) ∧
               values (drain rit) = s) →
  ∃ it, delegatingLexer_Tokenise d options text w = Some (Some it, None) ∧
        values (drain it) = text.
Proof.
  intros (lit & Hlang & Htext) Hroot.
  assert (Hl : Tokenise (Coalesce (language d)) options text w
               = Some (coalesce (drain lit), None)).
  { by rewrite Tokenise_Coalesce, Hlang. }
  assert (Hno : EOF ∉ coalesce (drain lit)) by apply coalesce_no_EOF, drain_no_EOF.
  destruct (extract_spec _ Hno) as (st & Hst & Hweave & _).
  rewrite coalesce_values, Htext in Hweave.
  rewrite delegatingLexer_Tokenise_eq, Hl. simpl. rewrite Hst. simpl.
  destruct (decide (length (insertions st) = 0%nat)) as [Hlen|Hlen].
  { destruct (Hroot text) as (rit & -> & Hr). by exists rit. }
  destruct (Hroot (others st)) as (rit & Hr & Hv).
  rewrite Tokenise_Coalesce, Hr. simpl.
  destruct (extract_chain (coalesce (drain lit))) as (st' & Hst' & Hch).
  rewrite Hst in Hst'. injection Hst' as <-.
  destruct (interleave_values (coalesce (drain rit)) (insertions st)) as (o & Ho & Hvo);
    [apply coalesce_no_EOF, drain_no_EOF|done|].
  rewrite Ho. simpl. exists o. split; [done|].
  rewrite drain_id.
  - by rewrite Hvo, coalesce_values, Hv.
  - eapply interleave_no_EOF; [|exact Ho]. intros i tok Hi Htok.
    destruct (extract_tokens_elem _ _ _ _ Hno Hst Hi Htok) as [Hin _].
    by intros ->.
Qed.

(** C2, as amended: for a root lexer without the extended capability,
    [TokeniseWithOriginalLen] returns the error "lexer does not support
    tokenizing with offsets", with a nil iterator, when the language pass
    succeeds and leaves the insertion list empty; when the language pass has
    found language tokens, the root lexer is run through the plain [Tokenise]
    over the "Other" buffer and the merged tokens are returned without that
    error. *)
Theorem TokeniseWithOriginalLen_unsupported
    (pkgTokeniseWithOriginalLen : tokenizeWithOriginalLen)
    (d : delegatingLexer) (options : TokeniseOptions) (text : string) (w : World) :
  Lexer_TokeniseWithOriginalLen (root d) = None →
  (∀ tokens oi,
     pkgTokeniseWithOriginalLen (Coalesce (language d)) options text w
     = Some (tokens, oi, None) →
     Forall (λ t, Type_ t = Other) tokens →
     delegatingLexer_TokeniseWithOriginalLen pkgTokeniseWithOriginalLen d options text w
     = Some (None, zeroOriginalLenIterator, Some unsupportedErr)) ∧
  (∀ tokens oi st rootTokens out,
     pkgTokeniseWithOriginalLen (Coalesce (language d)) options text w
     = Some (tokens, oi, None) →
     extract tokens = Some st → insertions st ≠ [] →
     Tokenise (Coalesce (root d)) options (others st) w = Some (rootTokens, None) →
     interleave rootTokens (insertions st) = Some out →
     delegatingLexer_TokeniseWithOriginalLen pkgTokeniseWithOriginalLen d options text w
     = Some (Some (Literator out), oi, None)).
Proof.
  intros Hcap. split.
  - intros tokens oi H Hall. unfold delegatingLexer_TokeniseWithOriginalLen.
    rewrite (delegatingLexer_tokenise_fast _ _ _ _ _ _ tokens oi H Hall).
    by rewrite Hcap.
  - intros tokens oi st rts o H Hst Hins Hr Ho.
    unfold delegatingLexer_TokeniseWithOriginalLen, delegatingLexer_tokenise.
    rewrite H. simpl. rewrite Hst. simpl.
    rewrite decide_False by (by destruct (insertions st)).
    rewrite Hr. simpl. by rewrite Ho.
Qed.

(** C10: in every state the interleaving loop goes through, whatever the
    language tokens and the root tokens are, the start of the pending
    insertion is not before the cursor while a root token is current; so the
    offset [i.start - offset] handed to [splitToken] lies within the value of
    the current token, the two slice expressions are in range, and the loop
    body does not panic. *)
Theorem interleave_split_in_range (tokens rootTokens : list Token)
    (est : ExtractState) (st : MergeState) (i : insertion) :
  extract tokens = Some est →
  reachable rootTokens (insertions est) st →
  cur_t st ≠ EOF → cur_i st = Some i →
  moffset st ≤ start i ∧
  (insertionDue st = true →
     0 ≤ start i - moffset st ≤ len (Value (cur_t st)) ∧
     is_Some (slice_to (Value (cur_t st)) (start i - moffset st)) ∧
     is_Some (slice_from (Value (cur_t st)) (start i - moffset st)) ∧
     is_Some (splitToken (cur_t st) (start i - moffset st))) ∧
  is_Some (mergeStep rootTokens (insertions est) st) ∧
  is_Some (interleave rootTokens (insertions est)).
Proof.
  intros Hest Hreach Ht Hi.
  destruct (extract_chain tokens) as (est' & Hest' & Hch).
  rewrite Hest in Hest'. injection Hest' as <-.
  pose proof (reachable_safe _ _ st Hch Hreach) as Hsafe.
  assert (Hle : moffset st ≤ start i).
  { destruct Hsafe as [Hc _]. unfold pend in Hc. rewrite Hi in Hc. by destruct Hc. }
  split; [done|]. split; [|split].
  - intros Hdue. destruct (insertionDue_true _ Hdue Ht) as (i' & Hi' & Hlt).
    rewrite Hi in Hi'. injection Hi' as <-.
    assert (Hrange : 0 ≤ start i - moffset st ≤ len (Value (cur_t st))) by lia.
    split; [done|]. unfold slice_to, slice_from.
    rewrite !decide_True by done. split; [by eexists|]. split; [by eexists|].
    apply splitToken_is_Some. by right.
  - apply SafeInv_progress; [done|]. unfold mergeCond.
    by rewrite bool_decide_eq_true_2.
  - by apply interleave_returns.
Qed.

(** * Further properties of delegate.go *)

(** ** splitToken *)

(** X1: the two parts [splitToken] returns put together give the token back:
    their values concatenate to its value, the left part has [offset] bytes,
    and each part is [EOF] or has the type of the token. *)
Theorem splitToken_pieces (t : Token) (o : Z) (l r : Token) :
  splitToken t o = Some (l, r) →
  Value l +:+ Value r = Value t ∧
  (t ≠ EOF → len (Value l) = o) ∧
  (l = EOF ∨ Type_ l = Type_ t) ∧ (r = EOF ∨ Type_ r = Type_ t).
Proof.
  intros H. split; [|split].
  - apply splitToken_Some in H as [(-> & -> & ->)|(_ & _ & -> & -> & _)]; [done|].
    apply str_take_drop.
  - intros Ht. by eapply splitToken_left_len.
  - apply splitToken_Some in H as [(-> & -> & ->)|(_ & _ & _ & _ & Hl & Hr)].
    + split; by left.
    + done.
Qed.

(** X2: [splitToken] panics exactly on a token other than [EOF] with an
    offset outside of its value; on [EOF] any offset, also a negative one,
    gives [(EOF, EOF)]. *)
Theorem splitToken_panics (t : Token) (o : Z) :
  (splitToken t o = None ↔ t ≠ EOF ∧ ¬ (0 ≤ o ≤ len (Value t))) ∧
  splitToken EOF o = Some (EOF, EOF).
Proof.
  split; [|done]. rewrite eq_None_not_Some, splitToken_is_Some.
  destruct (decide (t = EOF)); tauto.
Qed.

(** ** The extraction loop *)

(** The extraction loop splits the tokens [P] it has read in two. *)
Record ExtPart (P : list Token) (st : ExtractState) : Prop := {
  ep_safe : ExtSafe st;
  ep_others : others st = values (filter (λ t, Type_ t = Other) P);
  ep_tokens :
    concat (tokens <$> insertions st) = filter (λ t, Type_ t ≠ Other) P;
  ep_offset : offset st = len (values P);
  ep_nonempty : Forall (λ i, tokens i ≠ []) (insertions st)
}.

Lemma ExtPart_init : ExtPart [] extractInit.
Proof. constructor; try done. apply ExtSafe_init. Qed.

Lemma ExtPart_step (P : list Token) (st : ExtractState) (t : Token) :
  ExtPart P st → ∃ st', extractStep st t = Some st' ∧ ExtPart (P ++ [t]) st'.
Proof.
  intros [Hsafe Hoth Htok Hoff Hne].
  destruct (ExtSafe_step st t Hsafe) as (st' & Hstep & Hsafe' & _).
  exists st'. split; [done|].
  assert (Hoff' : offset st + len (Value t) = len (values (P ++ [t]))).
  { rewrite values_app, len_app, Hoff. simpl. by rewrite sapp_nil_r. }
  destruct Hsafe as [_ _ _ Hins Hopen].
  unfold extractStep in Hstep. destruct (decide (Type_ t = Other)) as [HtO|HtO].
  - assert (Hoth' : others st +:+ Value t
                    = values (filter (λ t, Type_ t = Other) (P ++ [t]))).
    { rewrite filter_app, values_app, Hoth.
      rewrite (filter_cons_True _ t []) by done. simpl. by rewrite sapp_nil_r. }
    assert (Htok' : concat (tokens <$> insertions st)
                    = filter (λ t, Type_ t ≠ Other) (P ++ [t])).
    { rewrite filter_app, (filter_cons_False _ t []) by tauto.
      by rewrite app_nil_r. }
    destruct (decide (last st ≠ EOF ∧ insert st ≠ None ∧ Type_ (last st) ≠ Other))
      as [(_ & Hp & _)|_].
    + destruct Hins as [[? _]|(ins0 & i & Hi & Hp')]; [done|].
      rewrite Hp', Hi, alter_last in Hstep. injection Hstep as <-.
      rewrite Hi in Htok', Hne. rewrite fmap_app in Htok'.
      apply Forall_app in Hne as [Hne0 Hne1]. inversion Hne1; subst.
      constructor; simpl; try done.
      * by rewrite fmap_app.
      * apply Forall_app. split; [done|]. by constructor.
    + injection Hstep as <-. by constructor.
  - assert (Hoth' : others st = values (filter (λ t, Type_ t = Other) (P ++ [t]))).
    { rewrite filter_app, (filter_cons_False _ t []) by done.
      by rewrite app_nil_r. }
    assert (Hf : filter (λ t, Type_ t ≠ Other) (P ++ [t])
                 = concat (tokens <$> insertions st) ++ [t]).
    { rewrite filter_app, (filter_cons_True _ t []) by done. by rewrite Htok. }
    destruct (decide (last st = EOF ∨ Type_ (last st) = Other)) as [Hc|Hc].
    + simpl in Hstep. rewrite alter_last in Hstep. injection Hstep as <-.
      constructor; simpl; try done.
      * rewrite fmap_app, concat_app. simpl. by rewrite Hf.
      * apply Forall_app. split; [done|]. by repeat constructor.
    + destruct Hins as [[Hn _]|(ins0 & i & Hi & Hp)]; [by apply Hopen in Hn|].
      rewrite Hp in Hstep. simpl in Hstep. rewrite Hi, alter_last in Hstep.
      injection Hstep as <-. rewrite Hi in Hf, Hne. rewrite fmap_app in Hf.
      rewrite concat_app in Hf. simpl in Hf. rewrite app_nil_r in Hf.
      apply Forall_app in Hne as [Hne0 _].
      constructor; simpl; try done.
      * rewrite fmap_app, concat_app. simpl. rewrite app_nil_r, Hf.
        by rewrite <-app_assoc.
      * apply Forall_app. split; [done|]. repeat constructor.
        simpl. by destruct (tokens i).
Qed.

Lemma extractFrom_part (ts P : list Token) (st : ExtractState) :
  ExtPart P st → ∃ st', extractFrom st ts = Some st' ∧ ExtPart (P ++ ts) st'.
Proof.
  revert P st. induction ts as [|t ts IH]; intros P st Hinv.
  - exists st. by rewrite app_nil_r.
  - destruct (ExtPart_step P st t Hinv) as (st1 & Hst1 & Hinv1).
    destruct (IH _ _ Hinv1) as (st' & Hst' & Hinv').
    exists st'. simpl. rewrite Hst1. simpl. split; [done|].
    by rewrite <-app_assoc in Hinv'.
Qed.

(** X3: on every token list the extraction loop returns (it never
    dereferences a nil [insert]) and splits the tokens in two, keeping their
    order: the "Other" buffer is the text of the tokens of type [Other], the
    tokens of the insertions are the other tokens, no insertion is empty, and
    the offset has advanced by the length of the whole text. *)
Theorem extract_partition (ts : list Token) :
  ∃ st, extract ts = Some st ∧
    others st = values (filter (λ t, Type_ t = Other) ts) ∧
    concat (tokens <$> insertions st) = filter (λ t, Type_ t ≠ Other) ts ∧
    Forall (λ i, tokens i ≠ []) (insertions st) ∧
    offset st = len (values ts).
Proof.
  destruct (extractFrom_part ts [] extractInit ExtPart_init)
    as (st & Hst & [_ Hoth Htok Hoff Hne]).
  by exists st.
Qed.

Lemma extractFrom_last (ts : list Token) (t : Token) (st st' : ExtractState) :
  extractFrom st (ts ++ [t]) = Some st' → last st' = t.
Proof.
  revert st. induction ts as [|x ts IH]; intros st; simpl.
  - destruct (extractStep st t) as [st1|] eqn:Hstep; simpl; [|done].
    intros [= <-]. unfold extractStep in Hstep.
    destruct (decide (Type_ t = Other)); [by injection Hstep as <-|].
    destruct (if decide (last st = EOF ∨ Type_ (last st) = Other) then _ else _)
      as [ins1 [p|]]; simpl in Hstep; [|done].
    by injection Hstep as <-.
  - destruct (extractStep st x) as [st1|]; simpl; [|done]. apply IH.
Qed.

(** X4: for a token list without [EOF], an insertion that is followed by
    another one spans exactly the text of its tokens and ends at or before
    the start of the next one (insertions do not overlap); and when the token
    list ends with a token of type [Other], every insertion spans the text of
    its tokens. *)
Theorem extract_insertions_disjoint (ts : list Token) (st : ExtractState) :
  EOF ∉ ts → extract ts = Some st →
  (∀ k i j, insertions st !! k = Some i → insertions st !! S k = Some j →
            end_ i = start i + len (values (tokens i)) ∧ end_ i ≤ start j) ∧
  (∀ ts' t, ts = ts' ++ [t] → Type_ t = Other →
            Forall (λ i, end_ i = start i + len (values (tokens i)))
                   (insertions st)).
Proof.
  intros Hts Hst. split.
  - intros k i j Hi Hj.
    destruct (extract_chain ts) as (st' & Hst' & Hch).
    rewrite Hst in Hst'. injection Hst' as <-.
    split; [|by eapply chain_consecutive].
    destruct (extract_spans ts st Hts Hst) as (ins0 & Hins & Hall).
    assert (Hin : ins0 !! k = Some i).
    { destruct Hins as [<-|(x & Hx)]; [done|].
      rewrite Hx in Hi, Hj. apply lookup_lt_Some in Hj.
      rewrite length_app in Hj. simpl in Hj.
      by rewrite lookup_app_l in Hi by lia. }
    pose proof (proj1 (Forall_lookup _ _) Hall k i Hin) as Hspan. simpl in Hspan.
    lia.
  - intros ts' t -> HtO.
    destruct (extractFrom_inv (ts' ++ [t]) [] extractInit ExtInv_init Hts)
      as (st' & Hst' & Hinv).
    unfold extract in Hst. rewrite Hst in Hst'. injection Hst' as <-.
    pose proof (extractFrom_last _ _ _ _ Hst) as Hlast.
    destruct Hinv as [_ _ _ _ _ Hshape].
    rewrite decide_True in Hshape by (right; by rewrite Hlast).
    destruct Hshape as (B & txt & o & tr & HW & _).
    eapply Forall_impl; [by eapply Ws_closed|]. simpl. intros i Hi. lia.
Qed.

Lemma extractFrom_language_run (ts : list Token) (st : ExtractState)
    (ins0 : list insertion) (i : insertion) :
  EOF ∉ ts → Forall (λ t, Type_ t ≠ Other) ts →
  insertions st = ins0 ++ [i] → insert st = Some (length ins0) →
  ¬ (last st = EOF ∨ Type_ (last st) = Other) →
  ∃ st', extractFrom st ts = Some st' ∧
         insertions st'
         = ins0 ++ [ {| start := start i; end_ := end_ i; tokens := tokens i ++ ts |} ] ∧
         others st' = others st.
Proof.
  revert st i. induction ts as [|t ts IH]; intros st i Hno Hall Hi Hp Hlast.
  - exists st. simpl. rewrite app_nil_r. by destruct i.
  - apply not_elem_of_cons in Hno as [Ht Hno].
    inversion Hall as [|?? HtO Hall']; subst.
    pose (st1 := {| others := others st;
                    insertions := ins0 ++ [appendToken t i];
                    insert := Some (length ins0);
                    offset := offset st + len (Value t);
                    last := t |}).
    assert (Hstep : extractStep st t = Some st1).
    { unfold extractStep. rewrite decide_False by done.
      rewrite decide_False by done. rewrite Hp. simpl.
      by rewrite Hi, alter_last. }
    destruct (IH st1 (appendToken t i) Hno Hall' eq_refl eq_refl)
      as (st' & Hst' & Hins & Hoth).
    { simpl. intros [?|?]; congruence. }
    exists st'. simpl extractFrom. rewrite Hstep. simpl. split; [exact Hst'|].
    split; [|done]. rewrite Hins. simpl. by rewrite <-app_assoc.
Qed.

(** A token list that is all language tokens gives one insertion, at offset
    0, and an empty "Other" buffer. *)
Lemma extract_all_language (ts : list Token) :
  ts ≠ [] → EOF ∉ ts → Forall (λ t, Type_ t ≠ Other) ts →
  ∃ st, extract ts = Some st ∧ others st = "" ∧
        insertions st = [ {| start := 0; end_ := 0; tokens := ts |} ].
Proof.
  destruct ts as [|t ts]; [done|]. intros _ Hno Hall.
  apply not_elem_of_cons in Hno as [Ht Hno].
  inversion Hall as [|?? HtO Hall']; subst.
  pose (st1 := {| others := "";
                  insertions := [ {| start := 0; end_ := 0; tokens := [t] |} ];
                  insert := Some 0%nat;
                  offset := 0 + len (Value t);
                  last := t |}).
  assert (Hstep : extractStep extractInit t = Some st1).
  { unfold extractStep. rewrite decide_False by done. simpl. done. }
  destruct (extractFrom_language_run ts st1 []
              {| start := 0; end_ := 0; tokens := [t] |} Hno Hall' eq_refl eq_refl)
    as (st' & Hst' & Hins & Hoth).
  { simpl. intros [?|?]; congruence. }
  exists st'. unfold extract. simpl extractFrom. rewrite Hstep. simpl.
  split; [exact Hst'|]. by split.
Qed.

(** X5: a text that is all language (the coalesced language pass yields
    tokens, none of type [Other]) for which the root lexer yields no token on
    the empty "Other" buffer: [Tokenise] returns the language tokens as they
    are. *)
Theorem Tokenise_all_language (d : delegatingLexer) (options : TokeniseOptions)
    (text : string) (w : World) (ts : list Token) :
  Tokenise (Coalesce (language d)) options text w = Some (ts, None) →
  ts ≠ [] → Forall (λ t, Type_ t ≠ Other) ts →
  Tokenise (Coalesce (root d)) options "" w = Some ([], None) →
  delegatingLexer_Tokenise d options text w = Some (Some ts, None).
Proof.
  intros Hlang Hne Hall Hroot.
  pose proof (Tokenise_no_EOF _ _ _ _ _ _ Hlang) as Hno.
  destruct (extract_all_language ts Hne Hno Hall) as (st & Hst & Hoth & Hins).
  rewrite delegatingLexer_Tokenise_eq, Hlang. simpl. rewrite Hst. simpl.
  rewrite Hins, Hoth, Hroot. simpl. done.
Qed.

(** ** The interleaving loop *)

Lemma len_weave (off : Z) (R : string) (ins : list insertion) :
  len (weave off R ins) = len R + len (values (concat (tokens <$> ins))).
Proof.
  revert off R. induction ins as [|i ins IH]; intros off R; simpl.
  { change (len "") with 0. lia. }
  change (list_fmap insertion (list Token) tokens ins) with (tokens <$> ins).
  rewrite !len_app, IH, values_app, len_app.
  pose proof (f_equal len (str_take_drop (Z.to_nat (start i - off)) R)) as H.
  rewrite len_app in H. lia.
Qed.

(** X6: whatever the root lexer returns (a token list without [EOF]), the
    merge returns, and the text of its output is the text of the root tokens
    with the tokens of each insertion spliced in at its start; so its length
    is the length of the root text plus the length of the language tokens:
    the merge drops no byte of either and repeats none. *)
Theorem merge_text (ts rootTokens : list Token) :
  EOF ∉ rootTokens →
  ∃ st out,
    extract ts = Some st ∧
    interleave rootTokens (insertions st) = Some out ∧
    values out = weave 0 (values rootTokens) (insertions st) ∧
    len (values out)
    = len (values rootTokens) + len (values (filter (λ t, Type_ t ≠ Other) ts)).
Proof.
  intros Hroot. destruct (extract_chain ts) as (st & Hst & Hch).
  destruct (interleave_values rootTokens (insertions st) Hroot Hch) as (out & Ho & Hv).
  exists st, out. split; [done|]. split; [done|]. split; [done|].
  rewrite Hv, len_weave.
  destruct (extractFrom_part ts [] extractInit ExtPart_init)
    as (st' & Hst' & [_ _ Htok _ _]).
  unfold extract in Hst. rewrite Hst in Hst'. injection Hst' as <-.
  by rewrite Htok.
Qed.

Section MergeFurther.
Variable rootTokens : list Token.
Variable inserts : list insertion.

(** The tokens of the insertions handled so far are in the output, in order. *)
Definition SubInv (st : MergeState) : Prop :=
  (cur_i st = None → drop (insertionIndex st) inserts = []) ∧
  ∃ pre, pre ++ concat (tokens <$> pend inserts st) = concat (tokens <$> inserts) ∧
         pre `sublist_of` out st.

Lemma SubInv_init : SubInv (mergeInit rootTokens inserts).
Proof.
  unfold SubInv, pend, mergeInit.
  destruct (nextToken rootTokens 0) as [t ti].
  destruct (nextInsertion inserts 0) as [i ii] eqn:Hi.
  apply nextInsertion_spec in Hi as (Hp & Hn & _). rewrite drop_0 in Hp.
  simpl. split; [done|]. exists []. by rewrite Hp.
Qed.

Lemma SubInv_step (st st' : MergeState) :
  SubInv st → mergeCond st = true →
  mergeStep rootTokens inserts st = Some st' → SubInv st'.
Proof.
  intros (Hnone & pre & Hpre & Hsub) Hc Hstep. unfold SubInv, pend in *.
  destruct (insertionDue st) eqn:Hdue.
  - destruct (mergeStep_due _ _ _ _ Hdue Hstep)
      as (i & l & r & t' & ti' & i' & ii' & Hi & _ & _ & Hni & Hout & _
          & _ & Hii & _ & Hci).
    apply nextInsertion_spec in Hni as (Hp & Hn & _).
    rewrite Hci, Hii, Hp, Hout. split; [done|].
    rewrite Hi in Hpre. simpl in Hpre.
    exists (pre ++ tokens i). split; [by rewrite <-app_assoc|].
    apply sublist_app; [done|]. by apply sublist_inserts_l.
  - destruct (mergeStep_nodue _ _ _ _ Hdue Hstep)
      as (t' & ti' & _ & Hout & _ & _ & Hii & _ & Hci).
    rewrite Hci, Hii, Hout. split; [done|].
    exists pre. split; [done|]. by apply sublist_inserts_r.
Qed.

Lemma interleave_sublist (o : list Token) :
  interleave rootTokens inserts = Some o →
  concat (tokens <$> inserts) `sublist_of` o.
Proof.
  unfold interleave. intros Ho.
  destruct (mergeLoop rootTokens inserts _ _) as [[o'|]|] eqn:Hloop; [|done..].
  simpl in Ho. injection Ho as ->.
  destruct (mergeLoop_inv _ _ SubInv SubInv_step _ _ _ SubInv_init Hloop)
    as (st' & (Hnone & pre & Hpre & Hsub) & Hcond & <-).
  apply mergeCond_false in Hcond as [_ Hi]. unfold pend in Hpre.
  rewrite Hi, (Hnone Hi) in Hpre. simpl in Hpre. rewrite app_nil_r in Hpre.
  by rewrite <-Hpre.
Qed.

(** The tokens still to come bound the tokens the output can grow by: an
    insertion splits at most one root token in two. *)
Definition budget (st : MergeState) : nat :=
  (length (out st) + (if decide (cur_t st = EOF) then 0 else 1) +
   length (rest rootTokens st) + length (pend inserts st) +
   length (concat (tokens <$> pend inserts st)))%nat.

Lemma nextToken_count (ti : nat) (t : Token) (ti' : nat) :
  nextToken rootTokens ti = (t, ti') →
  ((if decide (t = EOF) then 0 else 1) + length (drop ti' rootTokens)
   ≤ length (drop ti rootTokens))%nat.
Proof.
  intros H. apply nextToken_spec in H as [(_ & -> & ->)|(-> & -> & ->)]; simpl.
  - case_decide; lia.
  - lia.
Qed.

Lemma length_emit (l : Token) : (length (emit l) ≤ 1)%nat.
Proof. unfold emit. case_decide; simpl; lia. Qed.

Lemma budget_step (st st' : MergeState) :
  mergeStep rootTokens inserts st = Some st' → (budget st' ≤ budget st)%nat.
Proof.
  intros Hstep. unfold budget, pend, rest.
  destruct (insertionDue st) eqn:Hdue.
  - destruct (mergeStep_due _ _ _ _ Hdue Hstep)
      as (i & l & r & t' & ti' & i' & ii' & Hi & Hsp & Ht & Hni & Hout & _
          & Hti & Hii & Hct & Hci).
    apply nextInsertion_spec in Hni as (Hp & _ & _).
    rewrite Hci, Hii, Hp, Hout, Hti, Hct, Hi. simpl.
    change (list_fmap insertion (list Token) tokens (drop (insertionIndex st) inserts))
      with (tokens <$> drop (insertionIndex st) inserts).
    rewrite !length_app. pose proof (length_emit l) as Hl.
    destruct (decide (r = EOF)) as [->|Hr].
    + apply nextToken_count in Ht. case_decide; lia.
    + injection Ht as <- <-.
      apply splitToken_Some in Hsp as [(_ & _ & ->)|(Hne & _)]; [done|].
      rewrite decide_False by done. rewrite (decide_False (P:=cur_t st = EOF)) by done.
      lia.
  - destruct (mergeStep_nodue _ _ _ _ Hdue Hstep)
      as (t' & ti' & Ht & Hout & _ & Hti & Hii & Hct & Hci).
    apply insertionDue_false in Hdue as [Hne _].
    rewrite Hci, Hii, Hout, Hti, Hct, length_app. simpl.
    rewrite (decide_False (P:=cur_t st = EOF)) by done.
    apply nextToken_count in Ht. lia.
Qed.

Lemma interleave_length (o : list Token) :
  interleave rootTokens inserts = Some o →
  (length o ≤ length rootTokens + length inserts
              + length (concat (tokens <$> inserts)))%nat.
Proof.
  unfold interleave. intros Ho.
  destruct (mergeLoop rootTokens inserts _ _) as [[o'|]|] eqn:Hloop; [|done..].
  simpl in Ho. injection Ho as ->.
  destruct (mergeLoop_inv _ _
              (λ st, (budget st ≤ budget (mergeInit rootTokens inserts))%nat)
              (λ st st' H _ Hs, Nat.le_trans _ _ _ (budget_step _ _ Hs) H)
              _ _ _ (Nat.le_refl _) Hloop)
    as (st' & Hb & _ & <-).
  assert (Hinit : (budget (mergeInit rootTokens inserts)
                   ≤ length rootTokens + length inserts
                     + length (concat (tokens <$> inserts)))%nat).
  { unfold budget, pend, rest, mergeInit.
    destruct (nextToken rootTokens 0) as [t ti] eqn:Ht.
    destruct (nextInsertion inserts 0) as [i ii] eqn:Hi. simpl.
    apply nextInsertion_spec in Hi as (Hp & _ & _). rewrite drop_0 in Hp.
    rewrite Hp. apply nextToken_count in Ht. rewrite drop_0 in Ht. lia. }
  unfold budget in Hb at 1. lia.
Qed.

End MergeFurther.

Lemma extract_tokens (ts : list Token) (st : ExtractState) :
  extract ts = Some st →
  concat (tokens <$> insertions st) = filter (λ t, Type_ t ≠ Other) ts ∧
  Forall (λ i, tokens i ≠ []) (insertions st).
Proof.
  intros Hst.
  destruct (extractFrom_part ts [] extractInit ExtPart_init)
    as (st' & Hst' & [_ _ Htok _ Hne]).
  unfold extract in Hst. rewrite Hst in Hst'. by injection Hst' as <-.
Qed.

(** X7: the language tokens come out as they went in: the tokens of the
    language pass that are not [Other] are, in their order, a subsequence of
    the merged output, for any root tokens; so they are for the iterator that
    [Tokenise] returns on the merge path. *)
Theorem merge_keeps_language_tokens (d : delegatingLexer) (options : TokeniseOptions)
    (text : string) (w : World) (ts : list Token) :
  (∀ rootTokens st out,
     extract ts = Some st → interleave rootTokens (insertions st) = Some out →
     filter (λ t, Type_ t ≠ Other) ts `sublist_of` out) ∧
  (∀ it err,
     Tokenise (Coalesce (language d)) options text w = Some (ts, None) →
     ¬ Forall (λ t, Type_ t = Other) ts →
     delegatingLexer_Tokenise d options text w = Some (Some it, err) →
     filter (λ t, Type_ t ≠ Other) ts `sublist_of` it).
Proof.
  assert (Hloop : ∀ rootTokens st out,
            extract ts = Some st → interleave rootTokens (insertions st) = Some out →
            filter (λ t, Type_ t ≠ Other) ts `sublist_of` out).
  { intros rts st out Hst Ho. destruct (extract_tokens ts st Hst) as [<- _].
    by eapply interleave_sublist. }
  split; [done|].
  intros it err Hlang Hmerge Hres.
  destruct (delegatingLexer_Tokenise_inv _ _ _ _ _ _ Hres)
    as (ts' & st & Hlang' & Hst & Hpath).
  rewrite Hlang in Hlang'. injection Hlang' as <-.
  destruct Hpath as [[Hnil _]|(_ & _ & rts & _ & Ho)].
  { exfalso. apply Hmerge. by apply (extract_insertions_empty _ _ Hst). }
  by eapply Hloop.
Qed.

Lemma length_concat_nonempty {A} (ls : list (list A)) :
  Forall (λ l, l ≠ []) ls → (length ls ≤ length (concat ls))%nat.
Proof.
  induction 1 as [|l ls Hl _ IH]; simpl; [lia|].
  rewrite length_app. destruct l; [done|]. simpl. lia.
Qed.

(** X8: the merge adds at most one token for each insertion (an insertion
    splits at most one root token in two), and there are at most as many
    insertions as language tokens: the output has at most as many tokens as
    the root tokens, the insertions and the language tokens together. *)
Theorem merge_length (ts rootTokens : list Token) (st : ExtractState)
    (out : list Token) :
  extract ts = Some st → interleave rootTokens (insertions st) = Some out →
  (length out ≤ length rootTokens + length (insertions st)
                + length (filter (λ t, Type_ t ≠ Other) ts))%nat ∧
  (length (insertions st) ≤ length (filter (λ t, Type_ t ≠ Other) ts))%nat.
Proof.
  intros Hst Ho. destruct (extract_tokens ts st Hst) as [Htok Hne].
  rewrite <-Htok. split; [by apply interleave_length|].
  rewrite <-(length_fmap tokens (insertions st)).
  apply length_concat_nonempty. by apply Forall_fmap.
Qed.

(** X9: [Tokenise] does not panic and does not return a nil iterator with a
    nil error, for sub-lexers that do not return one: the extraction and the
    interleaving never panic, whatever the tokens are. *)
Theorem Tokenise_never_panics (d : delegatingLexer) (options : TokeniseOptions)
    (text : string) (w : World) :
  (∀ s, Lexer_Tokenise (language d) options s w ≠ (None, None)) →
  (∀ s, Lexer_Tokenise (root d) options s w ≠ (None, None)) →
  ∃ it err, delegatingLexer_Tokenise d options text w = Some (it, err) ∧
            (it, err) ≠ (None, None).
Proof.
  intros Hlang Hroot. rewrite delegatingLexer_Tokenise_eq, Tokenise_Coalesce.
  specialize (Hlang text).
  destruct (Lexer_Tokenise (language d) options text w) as [[lit|] [e|]];
    simpl; try done; [by eexists _, _| |by eexists _, _].
  destruct (extract_chain (coalesce (drain lit))) as (st & Hst & Hch).
  rewrite Hst. simpl. destruct (decide (length (insertions st) = 0%nat)).
  { specialize (Hroot text).
    destruct (Lexer_Tokenise (root d) options text w) as [it err]. by exists it, err. }
  rewrite Tokenise_Coalesce. specialize (Hroot (others st)).
  destruct (Lexer_Tokenise (root d) options (others st) w) as [[rit|] [e|]];
    simpl; try done; [by eexists _, _| |by eexists _, _].
  destruct (interleave_returns (coalesce (drain rit)) (insertions st) Hch) as [o Ho].
  rewrite Ho. simpl. by eexists _, _.
Qed.

Lemma elem_of_concat {A} (x : A) (ls : list (list A)) :
  (∃ l, x ∈ l ∧ l ∈ ls) → x ∈ concat ls.
Proof.
  intros (l & Hx & Hl). induction ls as [|l' ls IH]; [by apply elem_of_nil in Hl|].
  simpl. apply elem_of_app. apply elem_of_cons in Hl as [->|Hl]; [by left|].
  right. by apply IH.
Qed.

(** X10: the merge invents no token type: every token of the merged output
    is a token of the language pass that is not [Other], or has the type of
    a root token (the parts of a split root token keep its type). *)
Theorem merge_token_types (ts rootTokens : list Token) (st : ExtractState)
    (out : list Token) :
  extract ts = Some st → interleave rootTokens (insertions st) = Some out →
  Forall (λ tok, (tok ∈ ts ∧ Type_ tok ≠ Other) ∨
                 (∃ rt, rt ∈ rootTokens ∧ Type_ tok = Type_ rt)) out.
Proof.
  intros Hst Ho. destruct (extract_tokens ts st Hst) as [Htok _].
  apply (interleave_Forall rootTokens (insertions st)); [| |done].
  - intros i tok Hi Htk. left.
    assert (Hin : tok ∈ concat (tokens <$> insertions st)).
    { apply elem_of_concat. exists (tokens i). split; [done|].
      by apply list_elem_of_fmap_2. }
    rewrite Htok in Hin. by apply list_elem_of_filter in Hin as [? ?].
  - intros tok rt _ Hrt Hty. right. by exists rt.
Qed.

(** X11: the two entry points return the same tokens and the same error:
    when the package function [TokeniseWithOriginalLen] yields, for the
    language lexer, the tokens and the error of the package function
    [Tokenise], and the extended method of the root lexer yields the iterator
    and the error of its plain [Tokenise], then [TokeniseWithOriginalLen] of
    the delegating lexer yields the iterator and the error of its [Tokenise],
    and panics when that one does. *)
Theorem TokeniseWithOriginalLen_same_tokens
    (pkgTokeniseWithOriginalLen : tokenizeWithOriginalLen)
    (d : delegatingLexer) (options : TokeniseOptions) (text : string) (w : World)
    (lex : TokeniseOptions → string → World →
           option Iterator * OriginalLenIterator * option error) :
  Tokenise (Coalesce (language d)) options text w
  = (λ r, (r.1.1, r.2))
      <$> pkgTokeniseWithOriginalLen (Coalesce (language d)) options text w →
  Lexer_TokeniseWithOriginalLen (root d) = Some lex →
  Lexer_Tokenise (root d) options text w
  = ((lex options text w).1.1, (lex options text w).2) →
  delegatingLexer_Tokenise d options text w
  = (λ r, (r.1.1, r.2))
      <$> delegatingLexer_TokeniseWithOriginalLen pkgTokeniseWithOriginalLen
            d options text w.
Proof.
  intros Hlang Hcap Hroot.
  unfold delegatingLexer_Tokenise, delegatingLexer_TokeniseWithOriginalLen,
    delegatingLexer_tokenise.
  rewrite Hlang, Hcap, Hroot.
  destruct (pkgTokeniseWithOriginalLen (Coalesce (language d)) options text w)
    as [[[ts oi] [e|]]|]; simpl; [done| |done].
  destruct (extract ts) as [st|]; simpl; [|done].
  destruct (decide (length (insertions st) = 0%nat)).
  { by destruct (lex options text w) as [[it oi'] err]. }
  destruct (Tokenise (Coalesce (root d)) options (others st) w)
    as [[rts [e|]]|]; simpl; [done| |done].
  by destruct (interleave rts (insertions st)).
Qed.

(** X12: on the fast path [TokeniseWithOriginalLen] returns what the extended
    method of the root lexer returns for the whole text, the original lengths
    of the root lexer included; the original lengths of the language pass are
    dropped. *)
Theorem TokeniseWithOriginalLen_fast_path
    (pkgTokeniseWithOriginalLen : tokenizeWithOriginalLen)
    (d : delegatingLexer) (options : TokeniseOptions) (text : string) (w : World)
    (lex : TokeniseOptions → string → World →
           option Iterator * OriginalLenIterator * option error)
    (ts : list Token) (oi : OriginalLenIterator) :
  Lexer_TokeniseWithOriginalLen (root d) = Some lex →
  pkgTokeniseWithOriginalLen (Coalesce (language d)) options text w
  = Some (ts, oi, None) →
  Forall (λ t, Type_ t = Other) ts →
  delegatingLexer_TokeniseWithOriginalLen pkgTokeniseWithOriginalLen d options text w
  = Some (lex options text w).
Proof.
  intros Hcap Hlang Hall. unfold delegatingLexer_TokeniseWithOriginalLen.
  rewrite (delegatingLexer_tokenise_fast _ _ _ _ _ _ ts oi Hlang Hall), Hcap.
  by destruct (lex options text w) as [[it oi'] err].
Qed.

End Delegate.

(** * Concrete lexers *)

(** The token types of the examples: any three distinct non-zero values. *)
Definition ex_Other : TokenType := -12.
Definition ex_Keyword : TokenType := 1000.
Definition ex_Text : TokenType := 3000.

(** The state of the two sub-lexers: what was injected into each. *)
Record ex_World := mkWorld {
  rootRegistry : option nat;
  rootAnalyser : option (string → Z);
  languageRegistry : option nat;
  languageAnalyser : option (string → Z)
}.

Definition ex_w0 : ex_World :=
  {| rootRegistry := None; rootAnalyser := None;
     languageRegistry := None; languageAnalyser := None |}.

Definition ex_Lexer : Type := @Lexer unit (list Z) string nat Z ex_World.

(** The embedded language of the examples is the digits: one token for each
    byte, [ex_Keyword] for a digit and [ex_Other] for any other byte. *)
Definition isDigit (c : ascii) : bool :=
  let n := nat_of_ascii c in (48 <=? n)%nat && (n <=? 57)%nat.

Fixpoint ex_digitTokens (s : string) : list Token :=
  match s with
  | EmptyString => []
  | String c s' =>
      mkToken (if isDigit c then ex_Keyword else ex_Other) (String c "")
      :: ex_digitTokens s'
  end.

Definition ex_setRootRegistry (r : nat) (w : ex_World) : ex_World :=
  {| rootRegistry := Some r; rootAnalyser := rootAnalyser w;
     languageRegistry := languageRegistry w; languageAnalyser := languageAnalyser w |}.
Definition ex_setRootAnalyser (a : string → Z) (w : ex_World) : ex_World :=
  {| rootRegistry := rootRegistry w; rootAnalyser := Some a;
     languageRegistry := languageRegistry w; languageAnalyser := languageAnalyser w |}.
Definition ex_setLanguageRegistry (r : nat) (w : ex_World) : ex_World :=
  {| rootRegistry := rootRegistry w; rootAnalyser := rootAnalyser w;
     languageRegistry := Some r; languageAnalyser := languageAnalyser w |}.
Definition ex_setLanguageAnalyser (a : string → Z) (w : ex_World) : ex_World :=
  {| rootRegistry := rootRegistry w; rootAnalyser := rootAnalyser w;
     languageRegistry := languageRegistry w; languageAnalyser := Some a |}.

Definition ex_language : ex_Lexer :=
  {| Lexer_Config := fun _ => "digits";
     Lexer_Tokenise := fun _ s _ => (Some (ex_digitTokens s), None);
     Lexer_SetRegistry := ex_setLanguageRegistry;
     Lexer_SetAnalyser := ex_setLanguageAnalyser;
     Lexer_AnalyseText := fun s w =>
       match languageAnalyser w with Some a => a s | None => 0 end;
     Lexer_TokeniseWithOriginalLen := Some (fun _ s _ =>
       (Some (ex_digitTokens s), (fun _ => 1) <$> ex_digitTokens s, None)) |}.

(** A root lexer with a given tokenisation; it lacks the extended capability. *)
Definition ex_rootWith (tokenise : string → option Iterator * option error) : ex_Lexer :=
  {| Lexer_Config := fun _ => "root";
     Lexer_Tokenise := fun _ s _ => tokenise s;
     Lexer_SetRegistry := ex_setRootRegistry;
     Lexer_SetAnalyser := ex_setRootAnalyser;
     Lexer_AnalyseText := fun s w =>
       match rootAnalyser w with Some a => a s | None => 0 end;
     Lexer_TokeniseWithOriginalLen := None |}.

(** The whole text as one [ex_Text] token. *)
Definition ex_root : ex_Lexer :=
  ex_rootWith (fun s => (Some [mkToken ex_Text s], None)).
(** A root lexer that ends its text with a newline. *)
Definition ex_newline : string := String (ascii_of_nat 10) "".
Definition ex_rootEnsureNL : ex_Lexer :=
  ex_rootWith (fun s => (Some [mkToken ex_Text (s +:+ ex_newline)], None)).
(** A root lexer that emits [ex_Other] itself. *)
Definition ex_rootOther : ex_Lexer :=
  ex_rootWith (fun s => (Some [mkToken ex_Other s], None)).
(** A root lexer that fails. *)
Definition ex_rootFails : ex_Lexer :=
  ex_rootWith (fun _ => (None, Some "root failed")).

Definition ex_languageFails : ex_Lexer :=
  {| Lexer_Config := fun _ => "digits";
     Lexer_Tokenise := fun _ _ _ => (None, Some "language failed");
     Lexer_SetRegistry := ex_setLanguageRegistry;
     Lexer_SetAnalyser := ex_setLanguageAnalyser;
     Lexer_AnalyseText := fun _ _ => 0;
     Lexer_TokeniseWithOriginalLen := None |}.

(** Modelled from the spec: the package function [TokeniseWithOriginalLen] of
    the examples materialises the tokens of a lexer that has the "optional
    extended capability" and fails on a lexer that lacks it. *)
Definition ex_TokeniseWithOriginalLen : @tokenizeWithOriginalLen unit (list Z) string nat Z ex_World :=
  fun lexer options text w =>
    match Lexer_TokeniseWithOriginalLen lexer with
    | None => Some ([], [], Some unsupportedErr)
    | Some f =>
        match f options text w with
        | (_, _, Some err) => Some ([], [], Some err)
        | (Some it, ol, None) => Some (drain it, ol, None)
        | (None, _, None) => None
        end
    end.

Definition ex_d : delegatingLexer := DelegatingLexer ex_root ex_language.

(** * The claims on concrete inputs *)

Lemma ex_root_faithful (s : string) :
  ∃ rit, Lexer_Tokenise (root ex_d) tt s ex_w0 = (Some rit, None) ∧
         values (drain rit) = s.
Proof.
  eexists. split; [reflexivity|]. simpl. apply sapp_nil_r.
Qed.

Lemma Tokenise_reconstruction_witness :
  ∃ it, delegatingLexer_Tokenise [] ex_Other ex_d tt "ab12cd" ex_w0
        = Some (Some it, None) ∧
        values (drain it) = "ab12cd".
Proof.
  apply (Tokenise_reconstruction [] ex_Other ex_d tt "ab12cd" ex_w0).
  - eexists. split; reflexivity.
  - exact ex_root_faithful.
Defined.

(** C1 as stated fails: with a root lexer that ends its text with a newline
    the values of the output do not concatenate to the input. *)
Lemma Tokenise_reconstruction_counterexample :
  ∃ it, delegatingLexer_Tokenise [] ex_Other
          (DelegatingLexer ex_rootEnsureNL ex_language) tt "a1" ex_w0
        = Some (Some it, None) ∧
        values (drain it) ≠ "a1".
Proof. eexists. split; [reflexivity|]. vm_compute. discriminate. Qed.

Lemma TokeniseWithOriginalLen_unsupported_witness :
  delegatingLexer_TokeniseWithOriginalLen [] ex_Other ex_TokeniseWithOriginalLen
    ex_d tt "ab" ex_w0
  = Some (None, [], Some unsupportedErr).
Proof.
  apply (proj1 (TokeniseWithOriginalLen_unsupported [] ex_Other
                  ex_TokeniseWithOriginalLen ex_d tt "ab" ex_w0 eq_refl)
           [mkToken ex_Other "ab"] [1; 1]).
  - reflexivity.
  - repeat constructor.
Defined.

(** C2 as stated fails: the root lexer lacks the extended capability, and on
    a text with language tokens [TokeniseWithOriginalLen] returns the merged
    tokens and no error. *)
Lemma TokeniseWithOriginalLen_counterexample :
  Lexer_TokeniseWithOriginalLen (root ex_d) = None ∧
  delegatingLexer_TokeniseWithOriginalLen [] ex_Other ex_TokeniseWithOriginalLen
    ex_d tt "a1" ex_w0
  = Some (Some [mkToken ex_Text "a"; mkToken ex_Keyword "1"], [1; 1], None).
Proof. split; reflexivity. Qed.

(** C3 (a defect of the code): the insertion that is open when the tokens end
    keeps [end = 0]. For the single language token "ab" the insertion is
    [{start: 0, end: 0}], so [end - start] is 0 and its tokens cover 2 bytes. *)
Lemma extract_trailing_insertion_end_unset :
  ∃ st i, extract ex_Other [mkToken ex_Keyword "ab"] = Some st ∧
          insertions st = [i] ∧
          end_ i - start i = 0 ∧ len (values (tokens i)) = 2.
Proof. do 2 eexists. repeat split; reflexivity. Qed.

Lemma Tokenise_output_not_Other_witness :
  Forall (λ tok, Type_ tok ≠ ex_Other) [mkToken ex_Text "a"; mkToken ex_Keyword "1"].
Proof.
  apply Forall_forall.
  apply (Tokenise_output_not_Other [] ex_Other ex_d tt "a1" ex_w0 _ None).
  - intros s rit e rt [= <- _] ->%list_elem_of_singleton. discriminate.
  - reflexivity.
Defined.

(** C4 as stated fails: a root lexer that emits [Other] gives an output with
    a token of type [Other]. *)
Lemma Tokenise_output_not_Other_counterexample :
  ∃ it tok, delegatingLexer_Tokenise [] ex_Other
              (DelegatingLexer ex_rootOther ex_language) tt "a1" ex_w0
            = Some (Some it, None) ∧
            tok ∈ it ∧ Type_ tok = ex_Other.
Proof.
  exists [mkToken ex_Other "a"; mkToken ex_Keyword "1"], (mkToken ex_Other "a").
  split; [reflexivity|]. split; [by left|reflexivity].
Qed.

Lemma tokenise_fast_path_witness :
  delegatingLexer_Tokenise [] ex_Other ex_d tt "abc" ex_w0
  = Some (Lexer_Tokenise ex_root tt "abc" ex_w0).
Proof.
  apply (proj1 (proj2 (tokenise_fast_path [] ex_Other ex_d tt
                         ex_TokeniseWithOriginalLen (λ _ _ _, None) "abc" ex_w0))
           [mkToken ex_Other "abc"]).
  - reflexivity.
  - repeat constructor.
Defined.

Lemma splitToken_spec_witness :
  splitToken (mkToken ex_Keyword "abcdef") 2
  = Some (mkToken ex_Keyword "ab", mkToken ex_Keyword "cdef").
Proof.
  assert (H1 : mkToken ex_Keyword "abcdef" ≠ EOF) by discriminate.
  assert (H2 : 0 ≤ 2 ≤ len (Value (mkToken ex_Keyword "abcdef"))) by (vm_compute; split; discriminate).
  assert (H3 : 0 < 2 < len (Value (mkToken ex_Keyword "abcdef"))) by (vm_compute; split; reflexivity).
  exact (proj1 (proj2 (proj2 (splitToken_spec _ 2 H1 H2)) H3)).
Defined.

(** C6 as stated fails on a token with an empty value: the offset [0] is also
    the length of the value, and [splitToken] returns [(EOF, t)], not [(t, EOF)]. *)
Lemma splitToken_spec_counterexample :
  mkToken ex_Keyword "" ≠ EOF ∧
  0 ≤ len (Value (mkToken ex_Keyword "")) ≤ len (Value (mkToken ex_Keyword "")) ∧
  splitToken (mkToken ex_Keyword "") (len (Value (mkToken ex_Keyword "")))
  = Some (EOF, mkToken ex_Keyword "") ∧
  splitToken (mkToken ex_Keyword "") (len (Value (mkToken ex_Keyword "")))
  ≠ Some (mkToken ex_Keyword "", EOF).
Proof. repeat split; try discriminate; reflexivity. Qed.

Lemma delegatingLexer_forwarding_witness :
  delegatingLexer_SetAnalyser ex_d (λ _, 1) ex_w0
  = (ex_d, {| rootRegistry := None; rootAnalyser := Some (λ _, 1);
              languageRegistry := None; languageAnalyser := None |}) ∧
  delegatingLexer_SetRegistry ex_d 7%nat ex_w0
  = (ex_d, {| rootRegistry := Some 7%nat; rootAnalyser := None;
              languageRegistry := Some 7%nat; languageAnalyser := None |}) ∧
  delegatingLexer_Config ex_d ex_w0 = "digits" ∧
  delegatingLexer_AnalyseText ex_d "x" (ex_setRootAnalyser (λ _, 1) ex_w0) = 1.
Proof.
  destruct (delegatingLexer_forwarding ex_d ex_w0) as (_ & H2 & H3 & H4 & _).
  destruct (delegatingLexer_forwarding ex_d (ex_setRootAnalyser (λ _, 1) ex_w0))
    as (H1 & _).
  rewrite H1, H2, H3, H4. repeat split.
Defined.

Lemma tokenise_error_propagation_witness :
  delegatingLexer_Tokenise [] ex_Other
    (DelegatingLexer ex_root ex_languageFails) tt "a1" ex_w0
  = Some (None, Some "language failed") ∧
  delegatingLexer_Tokenise [] ex_Other
    (DelegatingLexer ex_rootFails ex_language) tt "a1" ex_w0
  = Some (None, Some "root failed").
Proof.
  split.
  - destruct (tokenise_error_propagation [] ex_Other
                (DelegatingLexer ex_root ex_languageFails) tt
                ex_TokeniseWithOriginalLen (λ _ _ _, None) "a1" ex_w0)
      as (_ & _ & H & _ & Hlexer).
    apply (H []). exact (Hlexer ex_languageFails "a1" None _ eq_refl).
  - destruct (tokenise_error_propagation [] ex_Other
                (DelegatingLexer ex_rootFails ex_language) tt
                ex_TokeniseWithOriginalLen (λ _ _ _, None) "a1" ex_w0)
      as (_ & _ & _ & H & Hlexer).
    apply (H [mkToken ex_Other "a"; mkToken ex_Keyword "1"]
             {| others := "a";
                insertions := [ {| start := 1; end_ := 0;
                                   tokens := [mkToken ex_Keyword "1"] |} ];
                insert := Some 0%nat; offset := 2;
                last := mkToken ex_Keyword "1" |}
             []).
    + reflexivity.
    + reflexivity.
    + discriminate.
    + exact (Hlexer ex_rootFails "a" None _ eq_refl).
Defined.

Lemma Tokenise_output_no_EOF_witness :
  EOF ∉ [mkToken ex_Keyword "1"; mkToken ex_Text "a"].
Proof.
  apply (proj2 (Tokenise_output_no_EOF [] ex_Other ex_d tt
                  ex_TokeniseWithOriginalLen (λ _ _ _, None) "1a" ex_w0)
           [mkToken ex_Keyword "1"; mkToken ex_Other "a"] _ None).
  - reflexivity.
  - intros H. inversion H as [|?? H1 _]. discriminate H1.
  - reflexivity.
Defined.

Lemma interleave_split_in_range_witness :
  0 ≤ 2 - 0 ≤ len "abcd" ∧ is_Some (splitToken (mkToken ex_Text "abcd") (2 - 0)).
Proof.
  pose (ts := [mkToken ex_Other "ab"; mkToken ex_Keyword "12"; mkToken ex_Other "cd"]).
  pose (i := {| start := 2; end_ := 4; tokens := [mkToken ex_Keyword "12"] |}).
  pose (est := {| others := "abcd"; insertions := [i]; insert := Some 0%nat;
                  offset := 6; last := mkToken ex_Other "cd" |}).
  pose (rts := [mkToken ex_Text "abcd"]).
  assert (Hne : cur_t (mergeInit rts (insertions est)) ≠ EOF) by discriminate.
  destruct (interleave_split_in_range ex_Other ts rts est
              (mergeInit rts (insertions est)) i eq_refl
              (reachable_init rts (insertions est)) Hne eq_refl)
    as (_ & H & _).
  destruct (H eq_refl) as (Hr & _ & _ & Hs). exact (conj Hr Hs).
Defined.

(** Split fidelity: a root token "abcdef" with an insertion 2 bytes in comes
    out as "ab", the tokens of the insertion, then "cdef", the two pieces
    with the type of the root token. *)
Example interleave_split_fidelity :
  interleave [mkToken ex_Text "abcdef"]
    [ {| start := 2; end_ := 4; tokens := [mkToken ex_Keyword "12"] |} ]
  = Some [mkToken ex_Text "ab"; mkToken ex_Keyword "12"; mkToken ex_Text "cdef"].
Proof. reflexivity. Qed.

(** The scenario of a language token between two "Other" spans. *)
Example Tokenise_scenario :
  delegatingLexer_Tokenise [] ex_Other ex_d tt "ab12cd" ex_w0
  = Some (Some [mkToken ex_Text "ab"; mkToken ex_Keyword "12"; mkToken ex_Text "cd"],
          None).
Proof. reflexivity. Qed.

(** * The further properties on concrete inputs *)

(** A root lexer that yields no token for the empty text. *)
Definition ex_rootNoEmpty : ex_Lexer :=
  ex_rootWith (fun s =>
    (Some (match s with EmptyString => [] | _ => [mkToken ex_Text s] end), None)).

(** A root lexer that has the extended capability: the whole text as one
    [ex_Text] token, with its length as original length. *)
Definition ex_rootLen : ex_Lexer :=
  {| Lexer_Config := fun _ => "root";
     Lexer_Tokenise := fun _ s _ => (Some [mkToken ex_Text s], None);
     Lexer_SetRegistry := ex_setRootRegistry;
     Lexer_SetAnalyser := ex_setRootAnalyser;
     Lexer_AnalyseText := fun s w =>
       match rootAnalyser w with Some a => a s | None => 0 end;
     Lexer_TokeniseWithOriginalLen := Some (fun _ s _ =>
       (Some [mkToken ex_Text s], [len s], None)) |}.

Lemma splitToken_pieces_witness :
  Value (mkToken ex_Text "ab") +:+ Value (mkToken ex_Text "cd")
  = Value (mkToken ex_Text "abcd") ∧
  (mkToken ex_Text "abcd" ≠ EOF → len (Value (mkToken ex_Text "ab")) = 2) ∧
  (mkToken ex_Text "ab" = EOF ∨ Type_ (mkToken ex_Text "ab") = Type_ (mkToken ex_Text "abcd")) ∧
  (mkToken ex_Text "cd" = EOF ∨ Type_ (mkToken ex_Text "cd") = Type_ (mkToken ex_Text "abcd")).
Proof. apply (splitToken_pieces (mkToken ex_Text "abcd") 2). reflexivity. Defined.

Lemma extract_insertions_disjoint_witness :
  ∃ st, extract ex_Other (ex_digitTokens "1a23b") = Some st ∧
        insertions st
        = [ {| start := 0; end_ := 1; tokens := [mkToken ex_Keyword "1"] |};
            {| start := 2; end_ := 4;
               tokens := [mkToken ex_Keyword "2"; mkToken ex_Keyword "3"] |} ] ∧
        Forall (λ i, end_ i = start i + len (values (tokens i))) (insertions st).
Proof.
  assert (Hne : EOF ∉ ex_digitTokens "1a23b").
  { cbn. intros H.
    repeat (apply elem_of_cons in H as [H|H]; [discriminate H|]).
    by apply elem_of_nil in H. }
  eexists. split; [reflexivity|]. split; [reflexivity|].
  apply (proj2 (extract_insertions_disjoint ex_Other (ex_digitTokens "1a23b") _
                  Hne eq_refl)
           (ex_digitTokens "1a23") (mkToken ex_Other "b")); reflexivity.
Defined.

Lemma Tokenise_all_language_witness :
  delegatingLexer_Tokenise [] ex_Other (DelegatingLexer ex_rootNoEmpty ex_language)
    tt "12" ex_w0
  = Some (Some [mkToken ex_Keyword "12"], None).
Proof.
  apply (Tokenise_all_language [] ex_Other (DelegatingLexer ex_rootNoEmpty ex_language)
           tt "12" ex_w0).
  - reflexivity.
  - discriminate.
  - repeat constructor; discriminate.
  - reflexivity.
Defined.

Lemma merge_text_witness :
  ∃ st out,
    extract ex_Other (ex_digitTokens "a1b") = Some st ∧
    interleave [mkToken ex_Text "ab"] (insertions st) = Some out ∧
    values out = weave 0 (values [mkToken ex_Text "ab"]) (insertions st) ∧
    len (values out)
    = len (values [mkToken ex_Text "ab"])
      + len (values (filter (λ t, Type_ t ≠ ex_Other) (ex_digitTokens "a1b"))).
Proof.
  apply (merge_text ex_Other (ex_digitTokens "a1b") [mkToken ex_Text "ab"]).
  intros H. apply list_elem_of_singleton in H. discriminate H.
Defined.

Lemma merge_keeps_language_tokens_witness :
  filter (λ t, Type_ t ≠ ex_Other)
    [mkToken ex_Other "a"; mkToken ex_Keyword "12"; mkToken ex_Other "b";
     mkToken ex_Keyword "3"]
  `sublist_of`
  [mkToken ex_Text "a"; mkToken ex_Keyword "12"; mkToken ex_Text "b";
   mkToken ex_Keyword "3"].
Proof.
  apply (proj2 (merge_keeps_language_tokens [] ex_Other ex_d tt "a12b3" ex_w0 _)
           _ None).
  - reflexivity.
  - intros H. inversion H as [|?? _ H']. inversion H' as [|?? Hk _]. discriminate Hk.
  - reflexivity.
Defined.

Lemma merge_length_witness :
  (length [mkToken ex_Text "a"; mkToken ex_Keyword "1"; mkToken ex_Text "b"]
   ≤ length [mkToken ex_Text "ab"]
     + length [ {| start := 1; end_ := 2; tokens := [mkToken ex_Keyword "1"] |} ]
     + length (filter (λ t, Type_ t ≠ ex_Other) (ex_digitTokens "a1b")))%nat ∧
  (length [ {| start := 1; end_ := 2; tokens := [mkToken ex_Keyword "1"] |} ]
   ≤ length (filter (λ t, Type_ t ≠ ex_Other) (ex_digitTokens "a1b")))%nat.
Proof.
  apply (merge_length ex_Other (ex_digitTokens "a1b") [mkToken ex_Text "ab"]
           {| others := "ab";
              insertions := [ {| start := 1; end_ := 2;
                                 tokens := [mkToken ex_Keyword "1"] |} ];
              insert := Some 0%nat; offset := 3; last := mkToken ex_Other "b" |});
    reflexivity.
Defined.

Lemma Tokenise_never_panics_witness :
  ∃ it err, delegatingLexer_Tokenise [] ex_Other ex_d tt "ab12cd" ex_w0
            = Some (it, err) ∧
            (it, err) ≠ (None, None).
Proof.
  apply (Tokenise_never_panics [] ex_Other ex_d tt "ab12cd" ex_w0);
    intros s; discriminate.
Defined.

Lemma merge_token_types_witness :
  Forall (λ tok, (tok ∈ ex_digitTokens "a1b" ∧ Type_ tok ≠ ex_Other) ∨
                 (∃ rt, rt ∈ [mkToken ex_Text "ab"] ∧ Type_ tok = Type_ rt))
    [mkToken ex_Text "a"; mkToken ex_Keyword "1"; mkToken ex_Text "b"].
Proof.
  apply (merge_token_types ex_Other (ex_digitTokens "a1b") [mkToken ex_Text "ab"]
           {| others := "ab";
              insertions := [ {| start := 1; end_ := 2;
                                 tokens := [mkToken ex_Keyword "1"] |} ];
              insert := Some 0%nat; offset := 3; last := mkToken ex_Other "b" |});
    reflexivity.
Defined.

Lemma TokeniseWithOriginalLen_same_tokens_witness :
  delegatingLexer_Tokenise [] ex_Other (DelegatingLexer ex_rootLen ex_language)
    tt "a1" ex_w0
  = (λ r, (r.1.1, r.2))
      <$> delegatingLexer_TokeniseWithOriginalLen [] ex_Other
            ex_TokeniseWithOriginalLen (DelegatingLexer ex_rootLen ex_language)
            tt "a1" ex_w0.
Proof.
  apply (TokeniseWithOriginalLen_same_tokens [] ex_Other ex_TokeniseWithOriginalLen
           (DelegatingLexer ex_rootLen ex_language) tt "a1" ex_w0
           (fun _ s _ => (Some [mkToken ex_Text s], [len s], None)));
    reflexivity.
Defined.

Lemma TokeniseWithOriginalLen_fast_path_witness :
  delegatingLexer_TokeniseWithOriginalLen [] ex_Other ex_TokeniseWithOriginalLen
    (DelegatingLexer ex_rootLen ex_language) tt "ab" ex_w0
  = Some (Some [mkToken ex_Text "ab"], [len "ab"], None).
Proof.
  apply (TokeniseWithOriginalLen_fast_path [] ex_Other ex_TokeniseWithOriginalLen
           (DelegatingLexer ex_rootLen ex_language) tt "ab" ex_w0
           (fun _ s _ => (Some [mkToken ex_Text s], [len s], None))
           [mkToken ex_Other "ab"] [1; 1]).
  - reflexivity.
  - reflexivity.
  - repeat constructor.
Defined.
